(** * fuzzysort (TypeScript port): preparation layer and [single]

    A shallow embedding of [src/fuzzy.ts].

    - JavaScript numbers that the file manipulates are array indexes, string
      lengths and UTF-16 code units, all natural numbers; the two other
      values the code can observe, [NaN] (a [charCodeAt] past the end) and
      [undefined] (an array read past the end), are kept as separate
      constructors of [jsval].
    - A JavaScript string is the list of its UTF-16 code units.
    - An array is a list of [jsval]; reads past the end give [undefined],
      writes past the end extend the array.
    - Module-level mutable state (the two caches and the scratch array
      [matchesSimple]) is threaded explicitly through a state monad. *)

From stdpp Require Import gmap list strings sorting.

(** ** JavaScript values *)

Inductive jsval : Type :=
| Num (n : nat)
| NaN
| Undefined.

#[global] Instance jsval_eq_dec : EqDecision jsval.
Proof. solve_decision. Defined.

(** [a === b] on the values above: [NaN] is different from everything,
    itself included. *)
Definition strict_eq (a b : jsval) : bool :=
  match a, b with
  | Num x, Num y => bool_decide (x = y)
  | Undefined, Undefined => true
  | _, _ => false
  end.

(** [a >= n], [a <= n] and [a > n] against a number [n]; [undefined] converts
    to [NaN], and every comparison with [NaN] is false. *)
Definition js_ge (a : jsval) (n : nat) : bool :=
  match a with Num x => bool_decide (n ≤ x) | _ => false end.

Definition js_le (a : jsval) (n : nat) : bool :=
  match a with Num x => bool_decide (x ≤ n) | _ => false end.

Definition js_gt (a : jsval) (n : nat) : bool :=
  match a with Num x => bool_decide (n < x) | _ => false end.

(** ** Strings and arrays *)

Abbreviation jsstring := (list nat).

(** The code units of a string literal. *)
Definition str (s : string) : jsstring :=
  Ascii.nat_of_ascii <$> String.list_ascii_of_string s.

Definition charCodeAt (s : jsstring) (i : nat) : jsval :=
  match s !! i with
  | Some c => Num c
  | None => NaN
  end.

(** [a[i]] *)
Definition array_get (a : list jsval) (i : nat) : jsval :=
  default Undefined (a !! i).

(** [a[i] = v]: in range the slot is overwritten, past the end the array
    grows and the slots in between read as [undefined]. *)
Definition array_set (a : list jsval) (i : nat) (v : jsval) : list jsval :=
  if decide (i < length a) then <[i := v]> a
  else a ++ replicate (i - length a) Undefined ++ [v].

(** [fillNumberArray]: [array.length = size; array.fill(0)]. *)
Definition fillNumberArray (size : nat) : list jsval :=
  replicate size (Num 0).

(** [for (let i = 0; i < n; i++) body]: the loop variable is not assigned in
    any body of the file, so the loop is a left fold over [0 .. n-1]. *)
Definition for_loop {S : Type} (n : nat) (body : nat → S → S) (init : S) : S :=
  fold_left (λ s i, body i s) (seq 0 n) init.

(** ** Boundary analyzer *)

(** [targetCode >= 65 && targetCode <= 90] *)
Definition isUpper (targetCode : jsval) : bool :=
  js_ge targetCode 65 && js_le targetCode 90.

Definition isAlphanum (targetCode : jsval) : bool :=
  isUpper targetCode
  || (js_ge targetCode 97 && js_le targetCode 122)
  || (js_ge targetCode 48 && js_le targetCode 57).

Definition isBeginning (wasUpper wasAlphanum : bool) (targetCode : jsval) : bool :=
  (isUpper targetCode && negb wasUpper)
  || negb wasAlphanum
  || negb (isAlphanum targetCode).

Record BeginningState : Type := mkBeginningState {
  beginningIndexes : list jsval;
  beginningIndexesLen : nat;
  wasUpper : bool;
  wasAlphanum : bool
}.

Definition prepareBeginningIndexes_body (target : jsstring) (i : nat)
    (st : BeginningState) : BeginningState :=
  let targetCode := charCodeAt target i in
  let is_beginning := isBeginning (wasUpper st) (wasAlphanum st) targetCode in
  if is_beginning then
    mkBeginningState
      (array_set (beginningIndexes st) (beginningIndexesLen st) (Num i))
      (S (beginningIndexesLen st))
      (isUpper targetCode) (isAlphanum targetCode)
  else
    mkBeginningState (beginningIndexes st) (beginningIndexesLen st)
      (isUpper targetCode) (isAlphanum targetCode).

Definition prepareBeginningIndexes (target : jsstring) : list jsval :=
  let targetLen := length target in
  beginningIndexes
    (for_loop targetLen (prepareBeginningIndexes_body target)
       (mkBeginningState [] 0 false false)).

Record NextState : Type := mkNextState {
  nextBeginningIndexes : list jsval;
  lastIsBeginning : jsval;
  lastIsBeginningI : nat
}.

Definition prepareNextBeginningIndexes_body (targetLen : nat)
    (beginnings : list jsval) (i : nat) (st : NextState) : NextState :=
  if js_gt (lastIsBeginning st) i then
    mkNextState
      (array_set (nextBeginningIndexes st) i (lastIsBeginning st))
      (lastIsBeginning st) (lastIsBeginningI st)
  else
    let I := S (lastIsBeginningI st) in
    let last := array_get beginnings I in
    mkNextState
      (array_set (nextBeginningIndexes st) i
         (if strict_eq last Undefined then Num targetLen else last))
      last I.

Definition prepareNextBeginningIndexes (target : jsstring) : list jsval :=
  let targetLen := length target in
  let beginnings := prepareBeginningIndexes target in
  nextBeginningIndexes
    (for_loop targetLen (prepareNextBeginningIndexes_body targetLen beginnings)
       (mkNextState (fillNumberArray targetLen) (array_get beginnings 0) 0)).

(** ** Results, options and the module-level state *)

Abbreviation PreparedSearch := (list jsval).

Record PreparedTarget : Type := mkPreparedTarget {
  pt_target : jsstring;
  pt_score : option jsval;
  pt_indexes : option (list jsval);
  pt_obj : option nat;
  _targetLowerCodes : list jsval;
  _nextBeginningIndexes : list jsval
}.

(** Prepared forms are JavaScript objects, and a cache hit hands back the
    very object that was stored. An object is its contents together with
    the serial number it received when it was allocated. *)
Record allocated (A : Type) : Type := mkAllocated {
  ident : nat;
  contents : A
}.
Arguments mkAllocated {A} ident contents.
Arguments ident {A} _.
Arguments contents {A} _.

Record Store : Type := mkStore {
  searchCache : gmap jsstring (allocated PreparedSearch);
  targetCache : gmap jsstring (allocated PreparedTarget);
  matchesSimple : list jsval;
  allocations : nat
}.

(** The state at module load: both maps and the scratch array are empty. *)
Definition initial_store : Store := mkStore ∅ ∅ [] 0.

Definition M (A : Type) : Type := Store → A * Store.

#[global] Instance M_ret : MRet M := λ A x σ, (x, σ).
#[global] Instance M_bind : MBind M :=
  λ A B f m σ, let (x, σ') := m σ in f x σ'.

Definition new_object {A : Type} (v : A) : M (allocated A) :=
  λ σ, (mkAllocated (allocations σ) v,
        mkStore (searchCache σ) (targetCache σ) (matchesSimple σ)
          (S (allocations σ))).

Definition searchCache_get (k : jsstring) : M (option (allocated PreparedSearch)) :=
  λ σ, (searchCache σ !! k, σ).

Definition searchCache_set (k : jsstring) (v : allocated PreparedSearch) : M unit :=
  λ σ, (tt, mkStore (<[k := v]> (searchCache σ)) (targetCache σ)
              (matchesSimple σ) (allocations σ)).

Definition targetCache_get (k : jsstring) : M (option (allocated PreparedTarget)) :=
  λ σ, (targetCache σ !! k, σ).

Definition targetCache_set (k : jsstring) (v : allocated PreparedTarget) : M unit :=
  λ σ, (tt, mkStore (searchCache σ) (<[k := v]> (targetCache σ))
              (matchesSimple σ) (allocations σ)).

(** [matchesSimple[i] = v] *)
Definition matchesSimple_set (i : nat) (v : jsval) : M unit :=
  λ σ, (tt, mkStore (searchCache σ) (targetCache σ)
              (array_set (matchesSimple σ) i v) (allocations σ)).

(** What a call can hand back: [null], [undefined] (a bare [return;]), or a
    match object as in the usage notes at the head of the file
    ([{score: 0}]). No statement of the file builds the last one. *)
Inductive result : Type :=
| RNull
| RUndefined
| RMatch (score : Z) (indexes : list nat).

Definition is_match (r : result) : bool :=
  match r with RMatch _ _ => true | _ => false end.

Definition no_match (r : result) : bool := negb (is_match r).

(** A loop that has not left after [fuel] iterations is [OutOfFuel]. *)
Inductive outcome : Type :=
| Returned (r : result)
| OutOfFuel.

(** The call has produced a result, a match or a no-match. *)
Definition returned (o : outcome) : bool :=
  match o with Returned _ => true | OutOfFuel => false end.

Inductive control (S : Type) : Type :=
| Continue (st : S)
| Return (r : result).
Arguments Continue {S} st.
Arguments Return {S} r.

(** [while (true) body] *)
Fixpoint while_true {S : Type} (fuel : nat) (body : S → M (control S))
    (st : S) : M outcome :=
  match fuel with
  | 0 => mret OutOfFuel
  | S fuel' =>
    c ← body st;
    match c with
    | Continue st' => while_true fuel' body st'
    | Return r => mret (Returned r)
    end
  end.

Record IFuzzyOptions : Type := mkOptions {
  allowTypo : option bool
}.

(** An argument of [single]: missing ([undefined] or [null]), a string, or
    an already prepared object. *)
Inductive arg (P : Type) : Type :=
| Absent
| Str (s : jsstring)
| Prepared (p : P).
Arguments Absent {P}.
Arguments Str {P} s.
Arguments Prepared {P} p.

(** [(o && o.allowTypo)], read as a condition *)
Definition and_allowTypo (o : option IFuzzyOptions) : bool :=
  default false (o ≫= allowTypo).

Definition resolve_allowTypo (options instanceOptions : option IFuzzyOptions) : bool :=
  and_allowTypo options || and_allowTypo instanceOptions || false.

Definition MAX_SEARCH_STRING_LENGTH_FOR_CACHING : nat := 999.
Definition MAX_TARGET_STRING_LENGTH_FOR_CACHING : nat := 999.

(** ** The scorer's loop *)

Record LoopState : Type := mkLoopState {
  searchIndex : nat;
  targetIndex : nat;
  typoSimpleIndex : nat;
  matchesSimpleLen : nat
}.

(** The body of the [while (true)] of [algorithm]. It holds no [break] and no
    [return], and assigns neither [targetIndex] nor [searchLowerCode]. *)
Definition algorithm_body (searchLowerCode : jsval) (targetLowerCodes : list jsval)
    (st : LoopState) : M (control LoopState) :=
  let isMatch := strict_eq searchLowerCode (array_get targetLowerCodes (targetIndex st)) in
  if isMatch then
    _ ← matchesSimple_set (matchesSimpleLen st) (Num (targetIndex st));
    mret (Continue (mkLoopState (S (searchIndex st)) (targetIndex st)
                      (typoSimpleIndex st) (S (matchesSimpleLen st))))
  else
    mret (Continue st).

(** [algorithm] is only ever applied to an object, so its first test
    [!preparedTarget] is false. *)
Definition algorithm (fuel : nat) (preparedSearch : PreparedSearch)
    (preparedTarget : PreparedTarget) : M outcome :=
  let targetLowerCodes := _targetLowerCodes preparedTarget in
  let searchLen := length preparedSearch in
  let targetLen := length targetLowerCodes in
  if bool_decide (targetLen = 0) then mret (Returned RUndefined)
  else
    let searchLowerCode := array_get preparedSearch 0 in
    while_true fuel (algorithm_body searchLowerCode targetLowerCodes)
      (mkLoopState 0 0 0 0).

(** ** Normalizer, preparation cache and [single] *)

Section Fuzzy.

(** [String.prototype.toLowerCase] belongs to the host; nothing is assumed
    of it, not even that it keeps the length. *)
Variable toLowerCase : jsstring → jsstring.

Definition prepareLowerCodes (search : jsstring) : list jsval :=
  let searchLen := length search in
  let lower := toLowerCase search in
  for_loop searchLen
    (λ i lowerCodes, array_set lowerCodes i (charCodeAt lower i))
    (fillNumberArray searchLen).

Definition prepareSearch (search : jsstring) : M (allocated PreparedSearch) :=
  new_object (prepareLowerCodes search).

Definition prepareTarget (target : jsstring) : M (allocated PreparedTarget) :=
  new_object
    (mkPreparedTarget target None None None
       (prepareLowerCodes target) (prepareNextBeginningIndexes target)).

Definition getPreparedTarget (target : jsstring) : M (allocated PreparedTarget) :=
  if bool_decide (MAX_TARGET_STRING_LENGTH_FOR_CACHING < length target) then
    prepareTarget target
  else
    cachedTarget ← targetCache_get target;
    match cachedTarget with
    | Some cached => mret cached
    | None =>
      preparedTarget ← prepareTarget target;
      _ ← targetCache_set target preparedTarget;
      mret preparedTarget
    end.

Definition getPreparedSearch (search : jsstring) : M (allocated PreparedSearch) :=
  if bool_decide (MAX_SEARCH_STRING_LENGTH_FOR_CACHING < length search) then
    prepareSearch search
  else
    cachedSearch ← searchCache_get search;
    match cachedSearch with
    | Some cached => mret cached
    | None =>
      preparedSearch ← prepareSearch search;
      _ ← searchCache_set search preparedSearch;
      mret preparedSearch
    end.

(** [if (!search) return null; if (!isObj(search)) search = getPreparedSearch(search)]:
    [None] stands for the early [return null]. The empty string is falsy,
    every object (the empty array too) is truthy. *)
Definition single_search (search : arg PreparedSearch) : M (option PreparedSearch) :=
  match search with
  | Absent | Str [] => mret None
  | Str s => o ← getPreparedSearch s; mret (Some (contents o))
  | Prepared p => mret (Some p)
  end.

Definition single_target (target : arg PreparedTarget) : M (option PreparedTarget) :=
  match target with
  | Absent | Str [] => mret None
  | Str s => o ← getPreparedTarget s; mret (Some (contents o))
  | Prepared p => mret (Some p)
  end.

Definition single (fuel : nat) (instanceOptions : option IFuzzyOptions)
    (search : arg PreparedSearch) (target : arg PreparedTarget)
    (options : option IFuzzyOptions) : M outcome :=
  s ← single_search search;
  match s with
  | None => mret (Returned RNull)
  | Some search =>
    t ← single_target target;
    match t with
    | None => mret (Returned RNull)
    | Some target =>
      let allowTypo := resolve_allowTypo options instanceOptions in
      let algorithm := if allowTypo then algorithm else algorithm in
      algorithm fuel search target
    end
  end.

End Fuzzy.

(** The ASCII part of [toLowerCase], for running the code on examples. *)
Definition ascii_toLowerCase (s : jsstring) : jsstring :=
  (λ c, if bool_decide (65 ≤ c ≤ 90) then c + 32 else c) <$> s.

(** ** Reference notions the properties are stated against *)

(** The flags the boundary loop carries into iteration [i]: those computed
    for the character before it, and [false] when there is none. *)
Definition upper_before (target : jsstring) (i : nat) : bool :=
  match i with
  | 0 => false
  | S j => isUpper (charCodeAt target j)
  end.

Definition alphanum_before (target : jsstring) (i : nat) : bool :=
  match i with
  | 0 => false
  | S j => isAlphanum (charCodeAt target j)
  end.

Definition beginning_at (target : jsstring) (i : nat) : bool :=
  isBeginning (upper_before target i) (alphanum_before target i)
    (charCodeAt target i).

(** The character classes in the words of the specification. *)
Definition latin_capitals : jsstring := str "ABCDEFGHIJKLMNOPQRSTUVWXYZ".

Definition ascii_alphanumerics : jsstring :=
  str "ABCDEFGHIJKLMNOPQRSTUVWXYZabcdefghijklmnopqrstuvwxyz0123456789".

Definition spec_upper (c : option nat) : bool :=
  match c with
  | Some c => bool_decide (c ∈ latin_capitals)
  | None => false
  end.

Definition spec_alphanum (c : option nat) : bool :=
  match c with
  | Some c => bool_decide (c ∈ ascii_alphanumerics)
  | None => false
  end.

(** The character before position [i], if any. *)
Definition previous (target : jsstring) (i : nat) : option nat :=
  match i with
  | 0 => None
  | S j => target !! j
  end.

(** "Position [i] is a word beginning", in the words of the specification. *)
Definition spec_word_beginning (target : jsstring) (i : nat) : bool :=
  bool_decide (i < length target)
  && ((spec_upper (target !! i) && negb (spec_upper (previous target i)))
      || negb (spec_alphanum (previous target i))
      || negb (spec_alphanum (target !! i))).

(** [v] is the least word-beginning position that is at least [from], or the
    length of the string when there is none. *)
Definition least_beginning_from (target : jsstring) (from v : nat) : Prop :=
  (Num v ∈ prepareBeginningIndexes target ∧ from ≤ v
   ∧ ∀ j, Num j ∈ prepareBeginningIndexes target → from ≤ j → v ≤ j)
  ∨ (v = length target
     ∧ ∀ j, Num j ∈ prepareBeginningIndexes target → j < from).

(** The positions among [a, a+1, ..., a+m-1] that pass a test, in increasing
    order. *)
Definition flagged (P : nat → bool) (a m : nat) : list nat :=
  filter (λ j, P j) (seq a m).

(** The first position after [i] that the boundary loop flags, or the length
    of the string. *)
Definition next_beginning (target : jsstring) (i : nat) : nat :=
  default (length target)
    (head (flagged (beginning_at target) (S i) (length target - S i))).

(** "Every search character occurs in the target, in order, though not
    necessarily contiguously", over the compared code sequences: walk the
    target once and match each search code to the next equal code. *)
Fixpoint spec_subsequence (search target : list jsval) : bool :=
  match target with
  | [] => bool_decide (search = [])
  | t :: target' =>
    match search with
    | [] => true
    | s :: search' =>
      if strict_eq s t then spec_subsequence search' target'
      else spec_subsequence search target'
    end
  end.

(** Every cached object was allocated earlier: its serial number is below the
    allocation counter. *)
Definition store_wf (σ : Store) : Prop :=
  (∀ k o, searchCache σ !! k = Some o → ident o < allocations σ)
  ∧ (∀ k o, targetCache σ !! k = Some o → ident o < allocations σ).

Definition same_caches (σ σ' : Store) : Prop :=
  searchCache σ' = searchCache σ ∧ targetCache σ' = targetCache σ.

Section CacheBehaviour.

Variable toLowerCase : jsstring → jsstring.

(** A miss on a cacheable target: the object built is stored under the
    string, the search cache is untouched, and the next call for the same
    string hands back that very object without changing anything. *)
Definition target_stored_and_reused (s : jsstring) (σ : Store) : Prop :=
  let '(o, σ') := getPreparedTarget toLowerCase s σ in
  contents o
  = mkPreparedTarget s None None None
      (prepareLowerCodes toLowerCase s) (prepareNextBeginningIndexes s)
  ∧ targetCache σ' = <[s := o]> (targetCache σ)
  ∧ searchCache σ' = searchCache σ
  ∧ getPreparedTarget toLowerCase s σ' = (o, σ').

Definition search_stored_and_reused (s : jsstring) (σ : Store) : Prop :=
  let '(o, σ') := getPreparedSearch toLowerCase s σ in
  contents o = prepareLowerCodes toLowerCase s
  ∧ searchCache σ' = <[s := o]> (searchCache σ)
  ∧ targetCache σ' = targetCache σ
  ∧ getPreparedSearch toLowerCase s σ' = (o, σ').

(** A string over the threshold: two calls in a row build two different
    objects with the prepared contents, neither of them an object held by
    a cache, and both caches stay as they were. *)
Definition target_built_afresh (s : jsstring) (σ : Store) : Prop :=
  let '(o1, σ1) := getPreparedTarget toLowerCase s σ in
  let '(o2, σ2) := getPreparedTarget toLowerCase s σ1 in
  contents o1 = contents o2
  ∧ contents o1
    = mkPreparedTarget s None None None
        (prepareLowerCodes toLowerCase s) (prepareNextBeginningIndexes s)
  ∧ ident o1 ≠ ident o2
  ∧ (store_wf σ → ∀ k c, targetCache σ !! k = Some c →
       ident c ≠ ident o1 ∧ ident c ≠ ident o2)
  ∧ same_caches σ σ1 ∧ same_caches σ σ2.

Definition search_built_afresh (s : jsstring) (σ : Store) : Prop :=
  let '(o1, σ1) := getPreparedSearch toLowerCase s σ in
  let '(o2, σ2) := getPreparedSearch toLowerCase s σ1 in
  contents o1 = contents o2
  ∧ contents o1 = prepareLowerCodes toLowerCase s
  ∧ ident o1 ≠ ident o2
  ∧ (store_wf σ → ∀ k c, searchCache σ !! k = Some c →
       ident c ≠ ident o1 ∧ ident c ≠ ident o2)
  ∧ same_caches σ σ1 ∧ same_caches σ σ2.

(** Every cache entry is the prepared form of its key: the only writer of
    the caches is the preparation code, and nothing in the file assigns to
    a prepared object afterwards. *)
Definition cache_sound (σ : Store) : Prop :=
  (∀ k o, searchCache σ !! k = Some o →
     contents o = prepareLowerCodes toLowerCase k)
  ∧ (∀ k o, targetCache σ !! k = Some o →
       contents o
       = mkPreparedTarget k None None None
           (prepareLowerCodes toLowerCase k) (prepareNextBeginningIndexes k)).

End CacheBehaviour.

(** ** Histories of calls *)

(** [!a] for an argument of [single]: a missing argument and the empty string
    are falsy, an object is not. *)
Definition falsy {P : Type} (a : arg P) : bool :=
  match a with
  | Absent | Str [] => true
  | _ => false
  end.

(** What [single] answers, read off its arguments alone: [null] from the two
    guards, [undefined] from the [targetLen === 0] test of [algorithm], and
    no answer once the loop is entered. *)
Definition single_outcome (search : arg PreparedSearch)
    (target : arg PreparedTarget) : outcome :=
  if falsy search then Returned RNull
  else if falsy target then Returned RNull
  else match target with
       | Prepared pt =>
         if bool_decide (_targetLowerCodes pt = []) then Returned RUndefined
         else OutOfFuel
       | _ => OutOfFuel
       end.

(** No two cache entries hold the same object. *)
Definition no_alias (σ : Store) : Prop :=
  (∀ k1 k2 o1 o2, searchCache σ !! k1 = Some o1 → searchCache σ !! k2 = Some o2 →
     ident o1 = ident o2 → k1 = k2)
  ∧ (∀ k1 k2 o1 o2, targetCache σ !! k1 = Some o1 → targetCache σ !! k2 = Some o2 →
       ident o1 = ident o2 → k1 = k2)
  ∧ (∀ k1 k2 o1 o2, searchCache σ !! k1 = Some o1 → targetCache σ !! k2 = Some o2 →
       ident o1 ≠ ident o2).

Section Histories.

Variable toLowerCase : jsstring → jsstring.

(** The elementary changes of the module state: an object is built and not
    kept, a freshly built object is entered into a cache under a key of
    cacheable length that was absent, or the scratch array is written. *)
Inductive internal_step : Store → Store → Prop :=
| step_build σ :
    internal_step σ
      (mkStore (searchCache σ) (targetCache σ) (matchesSimple σ)
         (S (allocations σ)))
| step_store_search σ s :
    length s ≤ MAX_SEARCH_STRING_LENGTH_FOR_CACHING →
    searchCache σ !! s = None →
    internal_step σ
      (mkStore
         (<[s := mkAllocated (allocations σ) (prepareLowerCodes toLowerCase s)]>
            (searchCache σ))
         (targetCache σ) (matchesSimple σ) (S (allocations σ)))
| step_store_target σ s :
    length s ≤ MAX_TARGET_STRING_LENGTH_FOR_CACHING →
    targetCache σ !! s = None →
    internal_step σ
      (mkStore (searchCache σ)
         (<[s := mkAllocated (allocations σ)
                   (mkPreparedTarget s None None None
                      (prepareLowerCodes toLowerCase s)
                      (prepareNextBeginningIndexes s))]>
            (targetCache σ))
         (matchesSimple σ) (S (allocations σ)))
| step_scratch σ m :
    internal_step σ
      (mkStore (searchCache σ) (targetCache σ) m (allocations σ)).

(** [single] is the only operation the class exports. [evolves σ σ'] holds
    when [σ'] is the module state some calls of [single] after [σ]; a call
    is taken with any bound on its rounds, so the states in which a call is
    still looping are included. *)
Inductive evolves : Store → Store → Prop :=
| evolves_refl σ : evolves σ σ
| evolves_single σ σ' fuel instanceOptions search target options :
    evolves σ σ' →
    evolves σ
      (single toLowerCase fuel instanceOptions search target options σ').2.

Definition reachable (σ : Store) : Prop := evolves initial_store σ.

(** What every elementary change preserves: the entries are the prepared
    forms of their keys, they are older than the allocation counter, they
    are pairwise distinct objects, and their keys have cacheable length. *)
Definition store_invariant (σ : Store) : Prop :=
  cache_sound toLowerCase σ
  ∧ store_wf σ
  ∧ no_alias σ
  ∧ (∀ k o, searchCache σ !! k = Some o →
       length k ≤ MAX_SEARCH_STRING_LENGTH_FOR_CACHING)
  ∧ (∀ k o, targetCache σ !! k = Some o →
       length k ≤ MAX_TARGET_STRING_LENGTH_FOR_CACHING).

End Histories.

(** A state to run examples in: the module state after
    [single('mr', 'Monitor.cpp')] has prepared both strings. *)
Definition sample_store : Store :=
  (single ascii_toLowerCase 0 None (Str (str "mr")) (Str (str "Monitor.cpp"))
     None initial_store).2.

(** * Properties *)

(** ** Loops and arrays *)

Lemma for_loop_S {S : Type} (n : nat) (body : nat → S → S) (init : S) :
  for_loop (Datatypes.S n) body init = body n (for_loop n body init).
Proof.
  unfold for_loop. rewrite seq_S, fold_left_app. reflexivity.
Qed.

Lemma array_set_end (a : list jsval) (v : jsval) :
  array_set a (length a) v = a ++ [v].
Proof.
  unfold array_set. rewrite decide_False by lia.
  replace (length a - length a) with 0 by lia. reflexivity.
Qed.

Lemma array_set_length_lt (a : list jsval) (i : nat) (v : jsval) :
  i < length a → length (array_set a i v) = length a.
Proof.
  intros Hi. unfold array_set. rewrite decide_True by done.
  apply length_insert.
Qed.

Lemma array_set_middle (pre post : list jsval) (x v : jsval) (i : nat) :
  length pre = i → array_set (pre ++ x :: post) i v = pre ++ v :: post.
Proof.
  intros <-. unfold array_set. rewrite decide_True.
  - rewrite insert_app_r_alt by lia.
    replace (length pre - length pre) with 0 by lia. reflexivity.
  - rewrite length_app. simpl. lia.
Qed.

(** ** Boundary analyzer *)

Lemma flagged_S (P : nat → bool) (a k : nat) :
  flagged P a (S k)
  = flagged P a k ++ (if P (a + k) then [a + k] else []).
Proof.
  unfold flagged. rewrite seq_S, filter_app. f_equal.
  rewrite filter_cons, filter_nil.
  destruct (P (a + k)); reflexivity.
Qed.

(** After [k] rounds the loop has collected, in increasing order, exactly the
    flagged positions below [k]. *)
Lemma prepareBeginningIndexes_loop (target : jsstring) (k : nat) :
  for_loop k (prepareBeginningIndexes_body target)
    (mkBeginningState [] 0 false false)
  = let found := flagged (beginning_at target) 0 k in
    mkBeginningState (Num <$> found) (length found)
      (upper_before target k) (alphanum_before target k).
Proof.
  induction k as [|k IH]; [reflexivity|].
  rewrite for_loop_S, IH. clear IH. cbv zeta.
  rewrite flagged_S. simpl (0 + k).
  unfold prepareBeginningIndexes_body. simpl.
  fold (beginning_at target k).
  destruct (beginning_at target k).
  - f_equal.
    + replace (length (flagged (beginning_at target) 0 k))
        with (length (Num <$> flagged (beginning_at target) 0 k))
        by apply length_fmap.
      rewrite array_set_end, fmap_app. reflexivity.
    + rewrite length_app. simpl. lia.
  - rewrite app_nil_r. reflexivity.
Qed.

Lemma prepareBeginningIndexes_filter (target : jsstring) :
  prepareBeginningIndexes target
  = Num <$> flagged (beginning_at target) 0 (length target).
Proof.
  unfold prepareBeginningIndexes. cbv zeta.
  rewrite prepareBeginningIndexes_loop. reflexivity.
Qed.

Lemma elem_of_prepareBeginningIndexes (target : jsstring) (i : nat) :
  Num i ∈ prepareBeginningIndexes target
  ↔ i < length target ∧ beginning_at target i = true.
Proof.
  rewrite prepareBeginningIndexes_filter, list_elem_of_fmap. unfold flagged.
  split.
  - intros (j & [= <-] & Hj). apply list_elem_of_filter in Hj as [HP Hj].
    apply elem_of_seq in Hj. split; [lia|]. by apply Is_true_eq_true.
  - intros [Hi HP]. exists i. split; [done|].
    apply list_elem_of_filter. split; [by apply Is_true_eq_left|].
    apply elem_of_seq. lia.
Qed.

Lemma isUpper_range (c : nat) : isUpper (Num c) = true ↔ 65 ≤ c ≤ 90.
Proof.
  unfold isUpper, js_ge, js_le.
  rewrite andb_true_iff, !bool_decide_eq_true. reflexivity.
Qed.

Lemma isAlphanum_range (c : nat) :
  isAlphanum (Num c) = true
  ↔ 65 ≤ c ≤ 90 ∨ 97 ≤ c ≤ 122 ∨ 48 ≤ c ≤ 57.
Proof.
  unfold isAlphanum, isUpper, js_ge, js_le.
  rewrite !orb_true_iff, !andb_true_iff, !bool_decide_eq_true. tauto.
Qed.

Lemma latin_capitals_range (c : nat) : c ∈ latin_capitals ↔ 65 ≤ c ≤ 90.
Proof.
  change latin_capitals with (seq 65 26). rewrite elem_of_seq. lia.
Qed.

Lemma ascii_alphanumerics_range (c : nat) :
  c ∈ ascii_alphanumerics ↔ 65 ≤ c ≤ 90 ∨ 97 ≤ c ≤ 122 ∨ 48 ≤ c ≤ 57.
Proof.
  change ascii_alphanumerics with (seq 65 26 ++ seq 97 26 ++ seq 48 10).
  rewrite !elem_of_app, !elem_of_seq. lia.
Qed.

Lemma isUpper_spec (s : jsstring) (i : nat) :
  isUpper (charCodeAt s i) = spec_upper (s !! i).
Proof.
  unfold charCodeAt, spec_upper. destruct (s !! i) as [c|]; [|reflexivity].
  apply eq_true_iff_eq.
  rewrite isUpper_range, bool_decide_eq_true, latin_capitals_range. reflexivity.
Qed.

Lemma isAlphanum_spec (s : jsstring) (i : nat) :
  isAlphanum (charCodeAt s i) = spec_alphanum (s !! i).
Proof.
  unfold charCodeAt, spec_alphanum. destruct (s !! i) as [c|]; [|reflexivity].
  apply eq_true_iff_eq.
  rewrite isAlphanum_range, bool_decide_eq_true, ascii_alphanumerics_range.
  reflexivity.
Qed.

Lemma beginning_at_spec (target : jsstring) (i : nat) :
  i < length target → beginning_at target i = spec_word_beginning target i.
Proof.
  intros Hi. unfold beginning_at, spec_word_beginning, isBeginning.
  rewrite bool_decide_eq_true_2 by done. simpl.
  rewrite isUpper_spec, isAlphanum_spec.
  destruct i as [|j]; simpl; [reflexivity|].
  rewrite isUpper_spec, isAlphanum_spec. reflexivity.
Qed.

(** C5. [prepareBeginningIndexes] lists position [i] exactly when [i] is a
    word beginning in the words of the specification: the character at [i]
    is one of the 26 Latin capitals and the one before is not, or the one
    before is not an ASCII letter or digit, or the character at [i] is not
    one. Position 0 of a non-empty string is always listed, and listed
    first. *)
Theorem boundary_analyzer_marks_word_beginnings (target : jsstring) :
  (∀ i, Num i ∈ prepareBeginningIndexes target
        ↔ spec_word_beginning target i = true)
  ∧ (target ≠ [] → prepareBeginningIndexes target !! 0 = Some (Num 0)).
Proof.
  split.
  - intros i. rewrite elem_of_prepareBeginningIndexes. split.
    + intros [Hi HP]. by rewrite <- beginning_at_spec.
    + intros HP. assert (i < length target) as Hi.
      { unfold spec_word_beginning in HP.
        apply andb_true_iff in HP as [HP _]. by apply bool_decide_eq_true in HP. }
      split; [done|]. by rewrite beginning_at_spec.
  - intros Hne. rewrite prepareBeginningIndexes_filter.
    destruct target as [|c target]; [done|].
    assert (beginning_at (c :: target) 0 = true) as H0.
    { unfold beginning_at, isBeginning. simpl. by rewrite orb_true_r. }
    unfold flagged. cbn [length seq].
    rewrite filter_cons, decide_True by by rewrite H0.
    reflexivity.
Qed.

Lemma boundary_analyzer_marks_word_beginnings_witness :
  (∀ i, Num i ∈ prepareBeginningIndexes (str "Fuzzy Search")
        ↔ spec_word_beginning (str "Fuzzy Search") i = true)
  ∧ prepareBeginningIndexes (str "Fuzzy Search") !! 0 = Some (Num 0).
Proof.
  destruct (boundary_analyzer_marks_word_beginnings (str "Fuzzy Search"))
    as [Hiff Hzero].
  split; [exact Hiff|]. apply Hzero. discriminate.
Defined.

(** ** Next-beginning table *)

Section NextLoop.

(** The loop of [prepareNextBeginningIndexes], run over the increasing
    list of the positions below [n] that satisfy an arbitrary test [P]. *)
Variable P : nat → bool.
Variable n : nat.

Lemma flagged_unfold (k : nat) :
  k < n →
  flagged P k (n - k) = (if P k then [k] else []) ++ flagged P (S k) (n - S k).
Proof using Type.
  intros Hk. unfold flagged.
  replace (n - k) with (S (n - S k)) by lia.
  cbn [seq]. rewrite filter_cons. destruct (P k); reflexivity.
Qed.

Lemma flagged_head_gt (k : nat) (v : nat) (rest : list nat) :
  flagged P (S k) (n - S k) = v :: rest → k < v.
Proof using Type.
  intros Heq. assert (v ∈ flagged P (S k) (n - S k)) as Hv.
  { rewrite Heq. left. }
  apply list_elem_of_filter in Hv as [_ Hv]. apply elem_of_seq in Hv. lia.
Qed.

Lemma beginnings_get (I : nat) (l : list nat) :
  drop I (flagged P 0 n) = l →
  array_get (Num <$> flagged P 0 n) I = from_option Num Undefined (head l).
Proof using Type.
  intros <-. unfold array_get.
  rewrite list_lookup_fmap, head_lookup, lookup_drop, Nat.add_0_r.
  destruct (flagged P 0 n !! I); reflexivity.
Qed.

Lemma drop_S_tail (I : nat) (l rest : list nat) (x : nat) :
  drop I l = x :: rest → drop (S I) l = rest.
Proof using Type.
  intros Heq. replace (S I) with (I + 1) by lia.
  rewrite <- drop_drop, Heq. reflexivity.
Qed.

Lemma drop_S_nil (I : nat) (l : list nat) :
  drop I l = [] → drop (S I) l = [].
Proof using Type.
  intros Heq. replace (S I) with (I + 1) by lia.
  rewrite <- drop_drop, Heq. reflexivity.
Qed.

(** After [k] rounds the first [k] slots are final, the others still hold
    the 0 of [fillNumberArray], and the cursor [lastIsBeginningI] has left
    behind the flagged positions below [k]. *)
Lemma next_loop_invariant (k : nat) :
  k ≤ n →
  ∃ I, drop I (flagged P 0 n) = flagged P k (n - k)
     ∧ for_loop k (prepareNextBeginningIndexes_body n (Num <$> flagged P 0 n))
         (mkNextState (fillNumberArray n)
            (array_get (Num <$> flagged P 0 n) 0) 0)
       = mkNextState
           (((λ i, Num (default n (head (flagged P (S i) (n - S i)))))
               <$> seq 0 k)
            ++ replicate (n - k) (Num 0))
           (array_get (Num <$> flagged P 0 n) I) I.
Proof using Type.
  induction k as [|k IH]; intros Hk.
  - exists 0. split.
    + by rewrite Nat.sub_0_r.
    + unfold for_loop, fillNumberArray. simpl. by rewrite Nat.sub_0_r.
  - destruct IH as (I & Hdrop & Hloop); [lia|].
    rewrite for_loop_S, Hloop. clear Hloop.
    rewrite flagged_unfold in Hdrop by lia.
    unfold prepareNextBeginningIndexes_body. cbn [lastIsBeginning
      lastIsBeginningI nextBeginningIndexes].
    replace (n - k) with (S (n - S k)) by lia. cbn [replicate].
    assert (length ((λ i, Num (default n (head (flagged P (S i) (n - S i)))))
                      <$> seq 0 k) = k) as Hlen
      by by rewrite length_fmap, length_seq.
    rewrite seq_S, fmap_app, <- app_assoc. simpl.
    rewrite (beginnings_get I _ Hdrop).
    destruct (P k) eqn:HPk; simpl in Hdrop |- *.
    + (* [k] itself is flagged: the cursor moves past it *)
      rewrite bool_decide_eq_false_2 by lia.
      exists (S I). apply drop_S_tail in Hdrop as Hdrop'.
      split; [done|].
      rewrite (beginnings_get (S I) _ Hdrop').
      f_equal. rewrite array_set_middle by done.
      do 2 f_equal. destruct (flagged P (S k) (n - S k)); reflexivity.
    + destruct (flagged P (S k) (n - S k)) as [|v rest] eqn:Hrest; simpl.
      * (* nothing flagged from [k] on: the read past the end is undefined *)
        exists (S I). apply drop_S_nil in Hdrop as Hdrop'.
        split; [done|].
        rewrite (beginnings_get (S I) _ Hdrop'). simpl.
        f_equal. rewrite array_set_middle by done.
        reflexivity.
      * (* the next flagged position lies ahead *)
        apply flagged_head_gt in Hrest as Hgt.
        rewrite bool_decide_eq_true_2 by lia.
        exists I. split; [done|].
        rewrite (beginnings_get I _ Hdrop). simpl.
        f_equal. rewrite array_set_middle by done.
        reflexivity.
Qed.

Lemma head_flagged_spec (a m : nat) :
  match head (flagged P a m) with
  | Some v => a ≤ v < a + m ∧ P v = true ∧ ∀ j, a ≤ j < v → P j = false
  | None => ∀ j, a ≤ j < a + m → P j = false
  end.
Proof using Type.
  revert a. induction m as [|m IH]; intros a.
  - simpl. intros j Hj. lia.
  - unfold flagged. cbn [seq]. rewrite filter_cons.
    specialize (IH (S a)). unfold flagged in IH.
    destruct (P a) eqn:HPa; simpl.
    + split; [lia|]. split; [done|]. intros j Hj. lia.
    + destruct (head (filter (λ j, P j) (seq (S a) m))) as [v|].
      * destruct IH as (Hv & HPv & Hmin). split; [lia|]. split; [done|].
        intros j Hj. destruct (decide (j = a)) as [->|]; [done|].
        apply Hmin. lia.
      * intros j Hj. destruct (decide (j = a)) as [->|]; [done|].
        apply IH. lia.
Qed.

End NextLoop.

Lemma prepareNextBeginningIndexes_table (target : jsstring) :
  prepareNextBeginningIndexes target
  = (λ i, Num (next_beginning target i)) <$> seq 0 (length target).
Proof.
  unfold prepareNextBeginningIndexes. cbv zeta.
  rewrite prepareBeginningIndexes_filter.
  destruct (next_loop_invariant (beginning_at target) (length target)
              (length target)) as (I & _ & ->); [lia|].
  simpl. rewrite Nat.sub_diag. simpl. rewrite app_nil_r. reflexivity.
Qed.

Lemma prepareNextBeginningIndexes_lookup (target : jsstring) (i : nat) :
  i < length target →
  prepareNextBeginningIndexes target !! i
  = Some (Num (next_beginning target i)).
Proof.
  intros Hi. rewrite prepareNextBeginningIndexes_table, list_lookup_fmap.
  rewrite lookup_seq_lt by done. reflexivity.
Qed.

Lemma next_beginning_least (target : jsstring) (i : nat) :
  i < length target →
  least_beginning_from target (S i) (next_beginning target i).
Proof.
  intros Hi. unfold least_beginning_from, next_beginning.
  pose proof (head_flagged_spec (beginning_at target) (S i)
                (length target - S i)) as Hhead.
  destruct (head (flagged (beginning_at target) (S i) (length target - S i)))
    as [v|]; simpl.
  - destruct Hhead as (Hv & HPv & Hmin). left. split; [|split; [lia|]].
    + apply elem_of_prepareBeginningIndexes. split; [lia|done].
    + intros j Hj Hle. apply elem_of_prepareBeginningIndexes in Hj as [Hj HPj].
      destruct (decide (v ≤ j)) as [|Hlt]; [done|].
      rewrite Hmin in HPj by lia. discriminate.
  - right. split; [done|]. intros j Hj.
    apply elem_of_prepareBeginningIndexes in Hj as [Hj HPj].
    destruct (decide (j < S i)) as [|Hge]; [done|].
    rewrite Hhead in HPj by lia. discriminate.
Qed.

Lemma next_beginning_bounds (target : jsstring) (i : nat) :
  i < length target → i < next_beginning target i ≤ length target.
Proof.
  intros Hi. destruct (next_beginning_least target i Hi) as [(Hv & Hle & _)|[-> _]].
  - apply elem_of_prepareBeginningIndexes in Hv. lia.
  - lia.
Qed.

(** The statement "the entry at [i] is the least word beginning at or after
    [i]" fails already for a one-letter string: position 0 is a word
    beginning, yet the entry at 0 is 1, the length. *)
Lemma next_boundary_at_or_after_fails :
  ¬ ∃ v, prepareNextBeginningIndexes (str "a") !! 0 = Some (Num v)
        ∧ least_beginning_from (str "a") 0 v.
Proof.
  intros (v & Hv & Hleast). vm_compute in Hv. injection Hv as <-.
  destruct Hleast as [(Hin & _)|(_ & Hall)].
  - apply elem_of_prepareBeginningIndexes in Hin as [Hlen _].
    vm_compute in Hlen. lia.
  - assert (Num 0 ∈ prepareBeginningIndexes (str "a")) as H0.
    { apply elem_of_prepareBeginningIndexes. split; [vm_compute; lia|reflexivity]. }
    apply Hall in H0. lia.
Qed.

(** C4 (amended). For every position [i] of a string, the entry of the
    next-beginning table at [i] is the least word-beginning position strictly
    after [i], or the length of the string when no word beginning follows. *)
Theorem next_boundary_is_least_beginning_after (target : jsstring) (i : nat) :
  i < length target →
  ∃ v, prepareNextBeginningIndexes target !! i = Some (Num v)
     ∧ least_beginning_from target (S i) v.
Proof.
  intros Hi. exists (next_beginning target i). split.
  - by apply prepareNextBeginningIndexes_lookup.
  - by apply next_beginning_least.
Qed.

Lemma next_boundary_is_least_beginning_after_witness :
  5 < length (str "Fuzzy Search")
  ∧ ∃ v, prepareNextBeginningIndexes (str "Fuzzy Search") !! 5 = Some (Num v)
       ∧ least_beginning_from (str "Fuzzy Search") 6 v.
Proof.
  assert (5 < length (str "Fuzzy Search")) as Hi by (vm_compute; lia).
  split; [exact Hi|].
  exact (next_boundary_is_least_beginning_after (str "Fuzzy Search") 5 Hi).
Defined.

(** C10. Every entry of the next-beginning table is a number strictly greater
    than its own position and at most the length of the string; at a position
    that is itself a word beginning the entry is the following word beginning
    (or the length), not the position. *)
Theorem next_boundary_strictly_ahead (target : jsstring) (i : nat) :
  i < length target →
  ∃ v, prepareNextBeginningIndexes target !! i = Some (Num v)
     ∧ i < v ≤ length target
     ∧ (Num i ∈ prepareBeginningIndexes target →
        v ≠ i ∧ least_beginning_from target (S i) v).
Proof.
  intros Hi. exists (next_beginning target i).
  pose proof (next_beginning_bounds target i Hi) as Hb.
  split; [by apply prepareNextBeginningIndexes_lookup|].
  split; [done|]. intros _. split; [lia|]. by apply next_beginning_least.
Qed.

Lemma next_boundary_strictly_ahead_witness :
  0 < length (str "MeshRenderer.cpp")
  ∧ ∃ v, prepareNextBeginningIndexes (str "MeshRenderer.cpp") !! 0 = Some (Num v)
       ∧ 0 < v ≤ length (str "MeshRenderer.cpp")
       ∧ (Num 0 ∈ prepareBeginningIndexes (str "MeshRenderer.cpp") →
          v ≠ 0 ∧ least_beginning_from (str "MeshRenderer.cpp") 1 v).
Proof.
  assert (0 < length (str "MeshRenderer.cpp")) as Hi by (vm_compute; lia).
  split; [exact Hi|].
  exact (next_boundary_strictly_ahead (str "MeshRenderer.cpp") 0 Hi).
Defined.

(** ** Normalizer and prepared targets *)

Section Prepared.

Variable toLowerCase : jsstring → jsstring.

(** After [k] rounds the first [k] slots hold the codes read from the
    lowered string; reading past its end gives [NaN]. *)
Lemma prepareLowerCodes_loop (search : jsstring) (k : nat) :
  k ≤ length search →
  for_loop k
    (λ i lowerCodes, array_set lowerCodes i (charCodeAt (toLowerCase search) i))
    (fillNumberArray (length search))
  = (charCodeAt (toLowerCase search) <$> seq 0 k)
    ++ replicate (length search - k) (Num 0).
Proof using Type.
  induction k as [|k IH]; intros Hk.
  - unfold for_loop, fillNumberArray. simpl. by rewrite Nat.sub_0_r.
  - rewrite for_loop_S, IH by lia.
    replace (length search - k) with (S (length search - S k)) by lia.
    cbn [replicate]. rewrite array_set_middle
      by by rewrite length_fmap, length_seq.
    rewrite seq_S, fmap_app, <- app_assoc. reflexivity.
Qed.

Lemma prepareLowerCodes_table (search : jsstring) :
  prepareLowerCodes toLowerCase search
  = charCodeAt (toLowerCase search) <$> seq 0 (length search).
Proof using Type.
  unfold prepareLowerCodes. cbv zeta.
  rewrite prepareLowerCodes_loop by lia.
  rewrite Nat.sub_diag. simpl. by rewrite app_nil_r.
Qed.

Lemma prepareLowerCodes_length (search : jsstring) :
  length (prepareLowerCodes toLowerCase search) = length search.
Proof using Type.
  by rewrite prepareLowerCodes_table, length_fmap, length_seq.
Qed.

Lemma prepareNextBeginningIndexes_length (target : jsstring) :
  length (prepareNextBeginningIndexes target) = length target.
Proof using Type.
  by rewrite prepareNextBeginningIndexes_table, length_fmap, length_seq.
Qed.

(** C8. The prepared target built from a string keeps the string, and both
    its lowercase-code sequence and its next-beginning table have the
    length of the string, whatever [toLowerCase] returns. *)
Theorem prepared_target_sequences_have_string_length
    (target : jsstring) (σ : Store) :
  let pt := contents (prepareTarget toLowerCase target σ).1 in
  pt_target pt = target
  ∧ length (_targetLowerCodes pt) = length target
  ∧ length (_nextBeginningIndexes pt) = length target.
Proof using Type.
  simpl. split; [reflexivity|]. split.
  - apply prepareLowerCodes_length.
  - apply prepareNextBeginningIndexes_length.
Qed.

End Prepared.

(** ** Preparation cache *)

Section Cache.

Variable toLowerCase : jsstring → jsstring.

Lemma getPreparedTarget_long (s : jsstring) (σ : Store) :
  MAX_TARGET_STRING_LENGTH_FOR_CACHING < length s →
  getPreparedTarget toLowerCase s σ = prepareTarget toLowerCase s σ.
Proof using Type.
  intros Hlen. unfold getPreparedTarget.
  by rewrite bool_decide_eq_true_2.
Qed.

Lemma getPreparedTarget_hit (s : jsstring) (o : allocated PreparedTarget)
    (σ : Store) :
  length s ≤ MAX_TARGET_STRING_LENGTH_FOR_CACHING →
  targetCache σ !! s = Some o →
  getPreparedTarget toLowerCase s σ = (o, σ).
Proof using Type.
  intros Hlen Hhit. unfold getPreparedTarget.
  rewrite bool_decide_eq_false_2 by lia.
  unfold mbind, M_bind, targetCache_get. by rewrite Hhit.
Qed.

Lemma getPreparedTarget_miss (s : jsstring) (σ : Store) :
  length s ≤ MAX_TARGET_STRING_LENGTH_FOR_CACHING →
  targetCache σ !! s = None →
  getPreparedTarget toLowerCase s σ
  = let o := mkAllocated (allocations σ)
               (mkPreparedTarget s None None None
                  (prepareLowerCodes toLowerCase s)
                  (prepareNextBeginningIndexes s)) in
    (o, mkStore (searchCache σ) (<[s := o]> (targetCache σ))
          (matchesSimple σ) (S (allocations σ))).
Proof using Type.
  intros Hlen Hmiss. unfold getPreparedTarget.
  rewrite bool_decide_eq_false_2 by lia.
  unfold mbind, M_bind, targetCache_get. by rewrite Hmiss.
Qed.

Lemma getPreparedSearch_long (s : jsstring) (σ : Store) :
  MAX_SEARCH_STRING_LENGTH_FOR_CACHING < length s →
  getPreparedSearch toLowerCase s σ = prepareSearch toLowerCase s σ.
Proof using Type.
  intros Hlen. unfold getPreparedSearch.
  by rewrite bool_decide_eq_true_2.
Qed.

Lemma getPreparedSearch_hit (s : jsstring) (o : allocated PreparedSearch)
    (σ : Store) :
  length s ≤ MAX_SEARCH_STRING_LENGTH_FOR_CACHING →
  searchCache σ !! s = Some o →
  getPreparedSearch toLowerCase s σ = (o, σ).
Proof using Type.
  intros Hlen Hhit. unfold getPreparedSearch.
  rewrite bool_decide_eq_false_2 by lia.
  unfold mbind, M_bind, searchCache_get. by rewrite Hhit.
Qed.

Lemma getPreparedSearch_miss (s : jsstring) (σ : Store) :
  length s ≤ MAX_SEARCH_STRING_LENGTH_FOR_CACHING →
  searchCache σ !! s = None →
  getPreparedSearch toLowerCase s σ
  = let o := mkAllocated (allocations σ) (prepareLowerCodes toLowerCase s) in
    (o, mkStore (<[s := o]> (searchCache σ)) (targetCache σ)
          (matchesSimple σ) (S (allocations σ))).
Proof using Type.
  intros Hlen Hmiss. unfold getPreparedSearch.
  rewrite bool_decide_eq_false_2 by lia.
  unfold mbind, M_bind, searchCache_get. by rewrite Hmiss.
Qed.

(** Both preparations keep every cached object older than the counter. *)
Lemma getPreparedTarget_wf (s : jsstring) (σ : Store) :
  store_wf σ → store_wf (getPreparedTarget toLowerCase s σ).2.
Proof using Type.
  intros [Hs Ht].
  destruct (decide (MAX_TARGET_STRING_LENGTH_FOR_CACHING < length s)) as [Hlong|Hshort].
  - rewrite getPreparedTarget_long by done. split; simpl; intros k o Hk.
    + apply Hs in Hk. lia.
    + apply Ht in Hk. lia.
  - destruct (targetCache σ !! s) as [c|] eqn:Hc.
    + rewrite (getPreparedTarget_hit s c) by (done || lia). by split.
    + rewrite getPreparedTarget_miss by (done || lia).
      split; simpl; intros k o Hk.
      * apply Hs in Hk. lia.
      * destruct (decide (s = k)) as [->|Hne].
        -- rewrite lookup_insert_eq in Hk. injection Hk as <-. simpl. lia.
        -- rewrite lookup_insert_ne in Hk by done. apply Ht in Hk. lia.
Qed.

Lemma getPreparedSearch_wf (s : jsstring) (σ : Store) :
  store_wf σ → store_wf (getPreparedSearch toLowerCase s σ).2.
Proof using Type.
  intros [Hs Ht].
  destruct (decide (MAX_SEARCH_STRING_LENGTH_FOR_CACHING < length s)) as [Hlong|Hshort].
  - rewrite getPreparedSearch_long by done. split; simpl; intros k o Hk.
    + apply Hs in Hk. lia.
    + apply Ht in Hk. lia.
  - destruct (searchCache σ !! s) as [c|] eqn:Hc.
    + rewrite (getPreparedSearch_hit s c) by (done || lia). by split.
    + rewrite getPreparedSearch_miss by (done || lia).
      split; simpl; intros k o Hk.
      * destruct (decide (s = k)) as [->|Hne].
        -- rewrite lookup_insert_eq in Hk. injection Hk as <-. simpl. lia.
        -- rewrite lookup_insert_ne in Hk by done. apply Hs in Hk. lia.
      * apply Ht in Hk. lia.
Qed.

(** C7. A string of length at most 999 that misses the cache is prepared,
    stored under itself, and the next preparation of the same string
    returns the stored object; a longer string is built anew by every call
    and leaves both caches unchanged. This holds for targets and for
    searches. *)
Theorem preparation_cache_policy (s : jsstring) (σ : Store) :
  (length s ≤ 999 → targetCache σ !! s = None →
   target_stored_and_reused toLowerCase s σ)
  ∧ (length s ≤ 999 → searchCache σ !! s = None →
     search_stored_and_reused toLowerCase s σ)
  ∧ (999 < length s →
     target_built_afresh toLowerCase s σ
     ∧ search_built_afresh toLowerCase s σ).
Proof using Type.
  split; [|split].
  - intros Hlen Hmiss. unfold target_stored_and_reused.
    rewrite getPreparedTarget_miss by done. cbv zeta.
    repeat split. apply getPreparedTarget_hit; [done|].
    simpl. apply lookup_insert_eq.
  - intros Hlen Hmiss. unfold search_stored_and_reused.
    rewrite getPreparedSearch_miss by done. cbv zeta.
    repeat split. apply getPreparedSearch_hit; [done|].
    simpl. apply lookup_insert_eq.
  - intros Hlen. split.
    + unfold target_built_afresh.
      rewrite getPreparedTarget_long by done. simpl.
      rewrite getPreparedTarget_long by done. simpl.
      split; [reflexivity|]. split; [reflexivity|]. split; [lia|].
      split; [|by split].
      intros [_ Hwf] k c Hk. apply Hwf in Hk. lia.
    + unfold search_built_afresh.
      rewrite getPreparedSearch_long by done. simpl.
      rewrite getPreparedSearch_long by done. simpl.
      split; [reflexivity|]. split; [reflexivity|]. split; [lia|].
      split; [|by split].
      intros [Hwf _] k c Hk. apply Hwf in Hk. lia.
Qed.

End Cache.

Lemma initial_store_wf : store_wf initial_store.
Proof. split; intros k o Hk; simpl in Hk; by rewrite lookup_empty in Hk. Qed.

Lemma preparation_cache_policy_witness :
  target_stored_and_reused ascii_toLowerCase (str "Monitor.cpp") initial_store
  ∧ search_stored_and_reused ascii_toLowerCase (str "mr") initial_store
  ∧ target_built_afresh ascii_toLowerCase (replicate 1000 97) initial_store
  ∧ search_built_afresh ascii_toLowerCase (replicate 1000 97) initial_store.
Proof.
  split; [|split].
  - apply (preparation_cache_policy ascii_toLowerCase (str "Monitor.cpp")
             initial_store); [vm_compute; lia | reflexivity].
  - apply (preparation_cache_policy ascii_toLowerCase (str "mr")
             initial_store); [vm_compute; lia | reflexivity].
  - apply (preparation_cache_policy ascii_toLowerCase (replicate 1000 97)
             initial_store). rewrite length_replicate. lia.
Defined.

(** ** The scorer's loop and [single] *)

(** A [while (true)] whose body never leaves uses up any amount of fuel. *)
Lemma while_true_never_returns {S : Type} (body : S → M (control S)) :
  (∀ st σ, ∃ st' σ', body st σ = (Continue st', σ')) →
  ∀ fuel st σ, (while_true fuel body st σ).1 = OutOfFuel.
Proof.
  intros Hbody fuel. induction fuel as [|fuel IH]; intros st σ; [reflexivity|].
  destruct (Hbody st σ) as (st' & σ' & Hstep).
  cbn [while_true]. unfold mbind, M_bind. rewrite Hstep. apply IH.
Qed.

Lemma algorithm_body_continues (searchLowerCode : jsval)
    (targetLowerCodes : list jsval) (st : LoopState) (σ : Store) :
  ∃ st' σ', algorithm_body searchLowerCode targetLowerCodes st σ
            = (Continue st', σ').
Proof.
  unfold algorithm_body.
  destruct (strict_eq _ _); unfold mbind, M_bind; simpl; eauto.
Qed.

Lemma algorithm_empty_target (fuel : nat) (preparedSearch : PreparedSearch)
    (preparedTarget : PreparedTarget) (σ : Store) :
  _targetLowerCodes preparedTarget = [] →
  algorithm fuel preparedSearch preparedTarget σ = (Returned RUndefined, σ).
Proof. intros Hempty. unfold algorithm. by rewrite Hempty. Qed.

Lemma algorithm_never_returns (fuel : nat) (preparedSearch : PreparedSearch)
    (preparedTarget : PreparedTarget) (σ : Store) :
  _targetLowerCodes preparedTarget ≠ [] →
  (algorithm fuel preparedSearch preparedTarget σ).1 = OutOfFuel.
Proof.
  intros Hne. unfold algorithm. cbv zeta.
  rewrite bool_decide_eq_false_2.
  - apply while_true_never_returns. intros st σ'. apply algorithm_body_continues.
  - intros Hlen. by apply nil_length_inv in Hlen.
Qed.

(** When the first code of the search equals the first code of the target,
    every round writes one more entry of the scratch array: it grows with
    the number of rounds. *)
Lemma algorithm_fills_matchesSimple (fuel : nat) (c : nat)
    (preparedSearch : PreparedSearch) (preparedTarget : PreparedTarget)
    (σ : Store) :
  array_get preparedSearch 0 = Num c →
  array_get (_targetLowerCodes preparedTarget) 0 = Num c →
  fuel ≤ length (matchesSimple (algorithm fuel preparedSearch preparedTarget σ).2).
Proof.
  intros Hs Ht. unfold algorithm. cbv zeta.
  rewrite bool_decide_eq_false_2.
  2:{ intros Hlen. apply nil_length_inv in Hlen.
      rewrite Hlen in Ht. discriminate. }
  rewrite Hs.
  assert (strict_eq (Num c) (Num c) = true) as Hrefl
    by (simpl; by rewrite bool_decide_eq_true_2).
  assert (∀ fuel si len σ,
    len ≤ length (matchesSimple σ) →
    len + fuel ≤ length (matchesSimple
      (while_true fuel
         (algorithm_body (Num c) (_targetLowerCodes preparedTarget))
         (mkLoopState si 0 0 len) σ).2)) as Hgrow.
  { clear fuel σ. intros fuel. induction fuel as [|fuel IH];
      intros si len σ Hlen; [simpl; lia|].
    cbn [while_true]. unfold mbind at 1, M_bind at 1.
    unfold algorithm_body. cbn [targetIndex]. rewrite Ht, Hrefl.
    unfold mbind, M_bind, matchesSimple_set, mret, M_ret.
    cbn [searchIndex targetIndex typoSimpleIndex matchesSimpleLen].
    eapply Nat.le_trans; [|apply (IH (S si) (S len))]; [lia|].
    simpl. unfold array_set.
    case_decide.
    - rewrite length_insert. lia.
    - rewrite !length_app, length_replicate. simpl. lia. }
  specialize (Hgrow fuel 0 0 σ). lia.
Qed.

Section Single.

Variable toLowerCase : jsstring → jsstring.

Lemma getPreparedTarget_sound (s : jsstring) (σ : Store) :
  cache_sound toLowerCase σ →
  contents (getPreparedTarget toLowerCase s σ).1
  = mkPreparedTarget s None None None
      (prepareLowerCodes toLowerCase s) (prepareNextBeginningIndexes s)
  ∧ cache_sound toLowerCase (getPreparedTarget toLowerCase s σ).2.
Proof using Type.
  intros [Hs Ht].
  destruct (decide (MAX_TARGET_STRING_LENGTH_FOR_CACHING < length s)) as [Hlong|Hshort].
  - rewrite getPreparedTarget_long by done. by split.
  - destruct (targetCache σ !! s) as [c|] eqn:Hc.
    + rewrite (getPreparedTarget_hit toLowerCase s c) by (done || lia).
      split; [by apply Ht | by split].
    + rewrite getPreparedTarget_miss by (done || lia).
      split; [reflexivity|]. split; [exact Hs|].
      simpl. intros k o Hk.
      destruct (decide (s = k)) as [->|Hne].
      * rewrite lookup_insert_eq in Hk. by injection Hk as <-.
      * rewrite lookup_insert_ne in Hk by done. by apply Ht.
Qed.

Lemma getPreparedSearch_sound (s : jsstring) (σ : Store) :
  cache_sound toLowerCase σ →
  contents (getPreparedSearch toLowerCase s σ).1
  = prepareLowerCodes toLowerCase s
  ∧ cache_sound toLowerCase (getPreparedSearch toLowerCase s σ).2.
Proof using Type.
  intros [Hs Ht].
  destruct (decide (MAX_SEARCH_STRING_LENGTH_FOR_CACHING < length s)) as [Hlong|Hshort].
  - rewrite getPreparedSearch_long by done. by split.
  - destruct (searchCache σ !! s) as [c|] eqn:Hc.
    + rewrite (getPreparedSearch_hit toLowerCase s c) by (done || lia).
      split; [by apply Hs | by split].
    + rewrite getPreparedSearch_miss by (done || lia).
      split; [reflexivity|]. split; [|exact Ht].
      simpl. intros k o Hk.
      destruct (decide (s = k)) as [->|Hne].
      * rewrite lookup_insert_eq in Hk. by injection Hk as <-.
      * rewrite lookup_insert_ne in Hk by done. by apply Hs.
Qed.

(** Two non-empty strings always reach the loop, and the loop has no way
    out. *)
Lemma single_loops (fuel : nat) (instanceOptions options : option IFuzzyOptions)
    (search target : jsstring) (σ : Store) :
  cache_sound toLowerCase σ →
  search ≠ [] → target ≠ [] →
  (single toLowerCase fuel instanceOptions (Str search) (Str target)
     options σ).1 = OutOfFuel.
Proof using Type.
  intros Hsound Hs Ht. unfold single, single_search, single_target.
  destruct search as [|c search]; [done|].
  destruct target as [|d target]; [done|].
  unfold mbind, M_bind, mret, M_ret.
  destruct (getPreparedSearch_sound (c :: search) σ Hsound) as [_ Hsound1].
  destruct (getPreparedSearch toLowerCase (c :: search) σ) as [ps σ1].
  simpl in Hsound1.
  destruct (getPreparedTarget_sound (d :: target) σ1 Hsound1) as [Hpt _].
  destruct (getPreparedTarget toLowerCase (d :: target) σ1) as [pt σ2].
  simpl in Hpt.
  assert (_targetLowerCodes (contents pt) ≠ []) as Hcodes.
  { rewrite Hpt. simpl. intros Hnil.
    apply (f_equal length) in Hnil.
    rewrite prepareLowerCodes_length in Hnil. discriminate. }
  destruct (resolve_allowTypo options instanceOptions);
    by apply algorithm_never_returns.
Qed.

End Single.

Section SingleProperties.

Variable toLowerCase : jsstring → jsstring.

(** C6. When the search is missing or empty, or the target is missing or
    empty, [single] returns [null], a no-match, whatever the other
    argument, the options and the state of the caches are; the loop is not
    entered, so this needs no fuel. *)
Theorem single_no_match_on_empty_or_absent (fuel : nat)
    (instanceOptions options : option IFuzzyOptions)
    (search : arg PreparedSearch) (target : arg PreparedTarget) (σ : Store) :
  search = Absent ∨ search = Str [] ∨ target = Absent ∨ target = Str [] →
  ∃ r, (single toLowerCase fuel instanceOptions search target options σ).1
       = Returned r
     ∧ no_match r = true.
Proof using Type.
  intros Hcase. exists RNull. split; [|reflexivity].
  unfold single, single_search, single_target, mbind, M_bind, mret, M_ret.
  destruct search as [|[|c s]|ps]; try reflexivity.
  - destruct (getPreparedSearch toLowerCase (c :: s) σ) as [o σ1].
    destruct Hcase as [?|[?|[->| ->]]]; done.
  - destruct Hcase as [?|[?|[->| ->]]]; done.
Qed.

(** C9. The call options, [allowTypo] included, have no influence on what
    [single] does: both settings run the same [algorithm], for every pair
    of arguments, every store and every bound on the number of rounds.
    When neither the call options nor the instance options set
    [allowTypo], it is [false]. *)
Theorem allowTypo_does_not_change_single :
  (∀ fuel instanceOptions search target options1 options2 σ,
     single toLowerCase fuel instanceOptions search target options1 σ
     = single toLowerCase fuel instanceOptions search target options2 σ)
  ∧ (∀ options instanceOptions,
       options ≫= allowTypo = None →
       instanceOptions ≫= allowTypo = None →
       resolve_allowTypo options instanceOptions = false).
Proof using Type.
  split.
  - intros fuel inst search target options1 options2 σ.
    unfold single, mbind, M_bind.
    destruct (single_search toLowerCase search σ) as [[ps|] σ1]; [|done].
    destruct (single_target toLowerCase target σ1) as [[pt|] σ2]; [|done].
    by destruct (resolve_allowTypo options1 inst),
                (resolve_allowTypo options2 inst).
  - intros options inst Ho Hi. unfold resolve_allowTypo, and_allowTypo.
    by rewrite Ho, Hi.
Qed.

(** C1 (what the code does). For a non-empty search, [single] does not
    return at all when the search is a subsequence of the target, and it
    does not return either when it is not one and the target is non-empty:
    no bound on the number of rounds is enough. *)
Theorem single_subsequence_never_answered (fuel : nat)
    (instanceOptions options : option IFuzzyOptions)
    (search target : jsstring) (σ : Store) :
  cache_sound toLowerCase σ →
  search ≠ [] →
  (spec_subsequence (prepareLowerCodes toLowerCase search)
     (prepareLowerCodes toLowerCase target) = true →
   (single toLowerCase fuel instanceOptions (Str search) (Str target)
      options σ).1 = OutOfFuel)
  ∧ (target ≠ [] →
     spec_subsequence (prepareLowerCodes toLowerCase search)
       (prepareLowerCodes toLowerCase target) = false →
     (single toLowerCase fuel instanceOptions (Str search) (Str target)
        options σ).1 = OutOfFuel).
Proof using Type.
  intros Hsound Hs. split.
  - intros Hsub. apply single_loops; [done..|].
    intros ->. destruct search as [|c search]; [done|].
    assert (prepareLowerCodes toLowerCase (c :: search) = []) as Hnil.
    { simpl in Hsub. by apply bool_decide_eq_true in Hsub. }
    apply (f_equal length) in Hnil.
    rewrite prepareLowerCodes_length in Hnil. discriminate.
  - intros Ht _. by apply single_loops.
Qed.

(** C2 (what the code does). For two non-empty strings [single] produces no
    result, neither a match nor a no-match: whatever the number of rounds
    granted, the loop of [algorithm] is still running. *)
Theorem single_does_not_terminate (fuel : nat)
    (instanceOptions options : option IFuzzyOptions)
    (search target : jsstring) (σ : Store) :
  cache_sound toLowerCase σ →
  search ≠ [] → target ≠ [] →
  returned
    (single toLowerCase fuel instanceOptions (Str search) (Str target)
       options σ).1 = false.
Proof using Type.
  intros Hsound Hs Ht. by rewrite single_loops.
Qed.

(** C3 (what the code does). For a non-empty string [s], [single(s, s)]
    never returns, so it yields no score. *)
Theorem single_identical_never_answered (fuel : nat)
    (instanceOptions options : option IFuzzyOptions)
    (s : jsstring) (σ : Store) :
  cache_sound toLowerCase σ →
  s ≠ [] →
  (single toLowerCase fuel instanceOptions (Str s) (Str s) options σ).1
  = OutOfFuel.
Proof using Type.
  intros Hsound Hs. by apply single_loops.
Qed.

End SingleProperties.

Lemma initial_store_sound (toLowerCase : jsstring → jsstring) :
  cache_sound toLowerCase initial_store.
Proof. split; intros k o Hk; simpl in Hk; by rewrite lookup_empty in Hk. Qed.

Lemma single_no_match_on_empty_or_absent_witness :
  ∃ r, (single ascii_toLowerCase 0 None (Str (str "mr")) Absent None
          initial_store).1 = Returned r
     ∧ no_match r = true.
Proof.
  apply (single_no_match_on_empty_or_absent ascii_toLowerCase 0 None None
           (Str (str "mr")) Absent initial_store).
  right. right. left. reflexivity.
Defined.

Lemma allowTypo_does_not_change_single_witness :
  single ascii_toLowerCase 3 None (Str (str "mr")) (Str (str "Monitor.cpp"))
    (Some (mkOptions (Some true))) initial_store
  = single ascii_toLowerCase 3 None (Str (str "mr")) (Str (str "Monitor.cpp"))
      (Some (mkOptions (Some false))) initial_store
  ∧ resolve_allowTypo (Some (mkOptions None)) None = false.
Proof.
  destruct (allowTypo_does_not_change_single ascii_toLowerCase) as [Hsame Hdefault].
  split.
  - apply Hsame.
  - apply Hdefault; reflexivity.
Defined.

Lemma single_subsequence_never_answered_witness :
  (single ascii_toLowerCase 1000 None (Str (str "fs")) (Str (str "Fuzzy Search"))
     None initial_store).1 = OutOfFuel
  ∧ (single ascii_toLowerCase 1000 None (Str (str "doesnt exist"))
       (Str (str "target")) None initial_store).1 = OutOfFuel.
Proof.
  split.
  - apply (proj1 (single_subsequence_never_answered ascii_toLowerCase 1000
                    None None (str "fs") (str "Fuzzy Search") initial_store
                    (initial_store_sound ascii_toLowerCase)
                    ltac:(discriminate))).
    reflexivity.
  - apply (proj2 (single_subsequence_never_answered ascii_toLowerCase 1000
                    None None (str "doesnt exist") (str "target") initial_store
                    (initial_store_sound ascii_toLowerCase)
                    ltac:(discriminate))).
    + discriminate.
    + reflexivity.
Defined.

Lemma single_does_not_terminate_witness :
  returned
    (single ascii_toLowerCase 1000 None (Str (str "a")) (Str (str "b")) None
       initial_store).1 = false.
Proof.
  apply (single_does_not_terminate ascii_toLowerCase 1000 None None
           (str "a") (str "b") initial_store).
  - apply initial_store_sound.
  - discriminate.
  - discriminate.
Defined.

Lemma single_identical_never_answered_witness :
  (single ascii_toLowerCase 1000 None (Str (str "test")) (Str (str "test"))
     None initial_store).1 = OutOfFuel.
Proof.
  apply (single_identical_never_answered ascii_toLowerCase 1000 None None
           (str "test") initial_store).
  - apply initial_store_sound.
  - discriminate.
Defined.

(** * Further properties of the preparation layer *)

Lemma charCodeAt_table (lower : jsstring) (n : nat) :
  charCodeAt lower <$> seq 0 n
  = (Num <$> take n lower) ++ replicate (n - length lower) NaN.
Proof.
  induction n as [|n IH]; [by rewrite take_0|].
  rewrite seq_S, fmap_app, IH. simpl. unfold charCodeAt.
  destruct (lower !! n) as [c|] eqn:Hn.
  - apply lookup_lt_Some in Hn as Hlt.
    rewrite (take_S_r _ _ _ Hn), fmap_app.
    replace (n - length lower) with 0 by lia.
    replace (S n - length lower) with 0 by lia.
    simpl. by rewrite !app_nil_r.
  - apply lookup_ge_None in Hn as Hge.
    rewrite !take_ge by lia.
    replace (S n - length lower) with (S (n - length lower)) by lia.
    by rewrite replicate_S_end, app_assoc.
Qed.

(** X1. The prepared codes of a string are the first [length] code units of
    its lowered form; when the host's lowering is longer the surplus is
    dropped, when it is shorter the missing places hold [NaN]. *)
Theorem prepareLowerCodes_contents (toLowerCase : jsstring → jsstring)
    (search : jsstring) :
  prepareLowerCodes toLowerCase search
  = (Num <$> take (length search) (toLowerCase search))
    ++ replicate (length search - length (toLowerCase search)) NaN.
Proof.
  rewrite prepareLowerCodes_table. apply charCodeAt_table.
Qed.

Lemma flagged_sorted (P : nat → bool) (a m : nat) :
  StronglySorted lt (flagged P a m)
  ∧ Forall (λ x, a ≤ x < a + m) (flagged P a m).
Proof.
  revert a. induction m as [|m IH]; intros a.
  - split; constructor.
  - destruct (IH (S a)) as [Hsorted Hbound].
    unfold flagged in *. cbn [seq]. rewrite filter_cons.
    assert (Forall (λ x, a ≤ x < a + S m)
              (filter (λ j, P j) (seq (S a) m))) as Hbound'.
    { eapply Forall_impl; [exact Hbound|]. simpl. intros x Hx. lia. }
    destruct (P a); simpl.
    + split.
      * constructor; [done|].
        eapply Forall_impl; [exact Hbound|]. simpl. intros x Hx. lia.
      * constructor; [lia|done].
    + by split.
Qed.

(** X2. The word beginnings are reported as numbers in strictly increasing
    order, each a position of the string; in particular no position is
    reported twice and there are at most [length] of them. *)
Theorem prepareBeginningIndexes_strictly_increasing (target : jsstring) :
  ∃ positions : list nat,
    prepareBeginningIndexes target = Num <$> positions
    ∧ StronglySorted lt positions
    ∧ Forall (λ p, p < length target) positions
    ∧ length (prepareBeginningIndexes target) ≤ length target.
Proof.
  exists (flagged (beginning_at target) 0 (length target)).
  destruct (flagged_sorted (beginning_at target) 0 (length target))
    as [Hsorted Hbound].
  split; [apply prepareBeginningIndexes_filter|]. split; [done|]. split.
  - eapply Forall_impl; [exact Hbound|]. simpl. intros x Hx. lia.
  - rewrite prepareBeginningIndexes_filter, length_fmap. unfold flagged.
    etrans; [apply length_filter|]. by rewrite length_seq.
Qed.

Lemma next_beginning_mono (target : jsstring) (i j : nat) :
  i ≤ j → j < length target →
  next_beginning target i ≤ next_beginning target j.
Proof.
  intros Hij Hj. assert (i < length target) as Hi by lia.
  pose proof (next_beginning_bounds target i Hi) as Hbi.
  destruct (next_beginning_least target i Hi) as [(_ & _ & Hmin)|[-> Hnone]];
  destruct (next_beginning_least target j Hj) as [(Hin & Hle & _)|[-> _]].
  - apply Hmin; [done|lia].
  - lia.
  - apply Hnone in Hin. lia.
  - lia.
Qed.

(** X3. The next-beginning table never decreases from one position to a
    later one, and its last entry is the length of the string. *)
Theorem prepareNextBeginningIndexes_monotone (target : jsstring) (i j : nat) :
  i ≤ j → j < length target →
  (∃ vi vj, prepareNextBeginningIndexes target !! i = Some (Num vi)
          ∧ prepareNextBeginningIndexes target !! j = Some (Num vj)
          ∧ vi ≤ vj)
  ∧ prepareNextBeginningIndexes target !! (length target - 1)
    = Some (Num (length target)).
Proof.
  intros Hij Hj. split.
  - exists (next_beginning target i), (next_beginning target j).
    rewrite !prepareNextBeginningIndexes_lookup by lia.
    split; [done|]. split; [done|]. by apply next_beginning_mono.
  - rewrite prepareNextBeginningIndexes_lookup by lia. do 2 f_equal.
    assert (length target - 1 < length target) as Hlast by lia.
    pose proof (next_beginning_bounds target _ Hlast). lia.
Qed.

Lemma prepareNextBeginningIndexes_monotone_witness :
  (∃ vi vj,
     prepareNextBeginningIndexes (str "MeshRenderer.cpp") !! 2 = Some (Num vi)
     ∧ prepareNextBeginningIndexes (str "MeshRenderer.cpp") !! 7 = Some (Num vj)
     ∧ vi ≤ vj)
  ∧ prepareNextBeginningIndexes (str "MeshRenderer.cpp")
      !! (length (str "MeshRenderer.cpp") - 1)
    = Some (Num (length (str "MeshRenderer.cpp"))).
Proof.
  apply (prepareNextBeginningIndexes_monotone (str "MeshRenderer.cpp") 2 7).
  - lia.
  - vm_compute. lia.
Defined.

(** * Histories of calls: what the caches hold *)

Lemma store_eta (σ : Store) :
  mkStore (searchCache σ) (targetCache σ) (matchesSimple σ) (allocations σ) = σ.
Proof. by destruct σ. Qed.

Lemma algorithm_body_scratch (searchLowerCode : jsval)
    (targetLowerCodes : list jsval) (st : LoopState) (σ : Store) :
  ∃ m, (algorithm_body searchLowerCode targetLowerCodes st σ).2
       = mkStore (searchCache σ) (targetCache σ) m (allocations σ).
Proof.
  unfold algorithm_body. destruct (strict_eq _ _).
  - eexists. reflexivity.
  - exists (matchesSimple σ). simpl. by rewrite store_eta.
Qed.

Lemma while_true_scratch (searchLowerCode : jsval)
    (targetLowerCodes : list jsval) (fuel : nat) (st : LoopState) (σ : Store) :
  ∃ m, (while_true fuel (algorithm_body searchLowerCode targetLowerCodes) st σ).2
       = mkStore (searchCache σ) (targetCache σ) m (allocations σ).
Proof.
  revert st σ. induction fuel as [|fuel IH]; intros st σ.
  - exists (matchesSimple σ). simpl. by rewrite store_eta.
  - cbn [while_true]. unfold mbind at 1, M_bind at 1.
    destruct (algorithm_body_continues searchLowerCode targetLowerCodes st σ)
      as (st' & σ' & Hstep).
    destruct (algorithm_body_scratch searchLowerCode targetLowerCodes st σ)
      as (m & Hm).
    rewrite Hstep in Hm |- *. simpl in Hm. subst σ'.
    destruct (IH st' (mkStore (searchCache σ) (targetCache σ) m (allocations σ)))
      as (m' & Hm').
    exists m'. exact Hm'.
Qed.

(** The scorer touches nothing but its scratch array. *)
Lemma algorithm_scratch (fuel : nat) (preparedSearch : PreparedSearch)
    (preparedTarget : PreparedTarget) (σ : Store) :
  ∃ m, (algorithm fuel preparedSearch preparedTarget σ).2
       = mkStore (searchCache σ) (targetCache σ) m (allocations σ).
Proof.
  unfold algorithm. cbv zeta. case_bool_decide.
  - exists (matchesSimple σ). simpl. by rewrite store_eta.
  - apply while_true_scratch.
Qed.

Section HistoryLemmas.

Variable toLowerCase : jsstring → jsstring.

Lemma getPreparedSearch_steps (s : jsstring) (σ : Store) :
  rtc (internal_step toLowerCase) σ (getPreparedSearch toLowerCase s σ).2.
Proof using Type.
  destruct (decide (MAX_SEARCH_STRING_LENGTH_FOR_CACHING < length s))
    as [Hlong|Hshort].
  - rewrite getPreparedSearch_long by done. apply rtc_once, step_build.
  - destruct (searchCache σ !! s) as [c|] eqn:Hc.
    + rewrite (getPreparedSearch_hit toLowerCase s c) by (done || lia). done.
    + rewrite getPreparedSearch_miss by (done || lia).
      apply rtc_once. apply step_store_search; [lia|done].
Qed.

Lemma getPreparedTarget_steps (s : jsstring) (σ : Store) :
  rtc (internal_step toLowerCase) σ (getPreparedTarget toLowerCase s σ).2.
Proof using Type.
  destruct (decide (MAX_TARGET_STRING_LENGTH_FOR_CACHING < length s))
    as [Hlong|Hshort].
  - rewrite getPreparedTarget_long by done. apply rtc_once, step_build.
  - destruct (targetCache σ !! s) as [c|] eqn:Hc.
    + rewrite (getPreparedTarget_hit toLowerCase s c) by (done || lia). done.
    + rewrite getPreparedTarget_miss by (done || lia).
      apply rtc_once. apply step_store_target; [lia|done].
Qed.

Lemma single_search_steps (search : arg PreparedSearch) (σ : Store) :
  rtc (internal_step toLowerCase) σ (single_search toLowerCase search σ).2.
Proof using Type.
  destruct search as [|[|c s]|p]; try done.
  unfold single_search, mbind, M_bind.
  pose proof (getPreparedSearch_steps (c :: s) σ) as Hsteps.
  by destruct (getPreparedSearch toLowerCase (c :: s) σ).
Qed.

Lemma single_target_steps (target : arg PreparedTarget) (σ : Store) :
  rtc (internal_step toLowerCase) σ (single_target toLowerCase target σ).2.
Proof using Type.
  destruct target as [|[|c s]|p]; try done.
  unfold single_target, mbind, M_bind.
  pose proof (getPreparedTarget_steps (c :: s) σ) as Hsteps.
  by destruct (getPreparedTarget toLowerCase (c :: s) σ).
Qed.

Lemma single_steps (fuel : nat) (instanceOptions options : option IFuzzyOptions)
    (search : arg PreparedSearch) (target : arg PreparedTarget) (σ : Store) :
  rtc (internal_step toLowerCase) σ
    (single toLowerCase fuel instanceOptions search target options σ).2.
Proof using Type.
  unfold single, mbind, M_bind.
  pose proof (single_search_steps search σ) as Hs.
  destruct (single_search toLowerCase search σ) as [[ps|] σ1]; [|done].
  pose proof (single_target_steps target σ1) as Ht.
  destruct (single_target toLowerCase target σ1) as [[pt|] σ2];
    [|by etrans].
  simpl in Hs, Ht.
  assert (rtc (internal_step toLowerCase) σ2 (algorithm fuel ps pt σ2).2) as Ha.
  { destruct (algorithm_scratch fuel ps pt σ2) as (m & ->).
    apply rtc_once, step_scratch. }
  destruct (resolve_allowTypo options instanceOptions);
    (etrans; [exact Hs|]; etrans; [exact Ht|]; exact Ha).
Qed.

Lemma evolves_steps (σ σ' : Store) :
  evolves toLowerCase σ σ' → rtc (internal_step toLowerCase) σ σ'.
Proof using Type.
  induction 1 as [|σ σ' fuel inst search target options _ IH]; [done|].
  etrans; [exact IH|]. apply single_steps.
Qed.

(** Each elementary change keeps every cached object and never lowers the
    allocation counter. *)
Lemma internal_step_keeps (σ σ' : Store) :
  internal_step toLowerCase σ σ' →
  (∀ k o, searchCache σ !! k = Some o → searchCache σ' !! k = Some o)
  ∧ (∀ k o, targetCache σ !! k = Some o → targetCache σ' !! k = Some o)
  ∧ allocations σ ≤ allocations σ'.
Proof using Type.
  intros [σ0|σ0 s Hlen Hmiss|σ0 s Hlen Hmiss|σ0 m]; simpl;
    (split; [|split; [|lia]]); intros k o Hk; try done.
  - rewrite lookup_insert_ne; [done|]. intros ->. congruence.
  - rewrite lookup_insert_ne; [done|]. intros ->. congruence.
Qed.

Lemma internal_steps_keep (σ σ' : Store) :
  rtc (internal_step toLowerCase) σ σ' →
  (∀ k o, searchCache σ !! k = Some o → searchCache σ' !! k = Some o)
  ∧ (∀ k o, targetCache σ !! k = Some o → targetCache σ' !! k = Some o)
  ∧ allocations σ ≤ allocations σ'.
Proof using Type.
  induction 1 as [σ|σ σ1 σ' Hstep _ (IHs & IHt & IHa)]; [done|].
  destruct (internal_step_keeps _ _ Hstep) as (Hs & Ht & Ha).
  split; [|split; [|lia]]; eauto.
Qed.

Lemma initial_store_invariant : store_invariant toLowerCase initial_store.
Proof using Type.
  repeat split; intros; simpl in *; simplify_map_eq.
Qed.

Lemma internal_step_invariant (σ σ' : Store) :
  internal_step toLowerCase σ σ' →
  store_invariant toLowerCase σ → store_invariant toLowerCase σ'.
Proof using Type.
  intros Hstep ([Hss Hst] & [Hws Hwt] & (Has & Hat & Hax) & Hks & Hkt).
  destruct Hstep as [σ0|σ0 s Hlen Hmiss|σ0 s Hlen Hmiss|σ0 m].
  - (* an object is built and dropped *)
    repeat split; simpl; eauto.
    + intros k o Hk. apply Hws in Hk. lia.
    + intros k o Hk. apply Hwt in Hk. lia.
  - (* a search is stored *)
    repeat split; simpl.
    + intros k o [[<- <-]|[_ Hk]]%lookup_insert_Some; eauto.
    + exact Hst.
    + intros k o [[<- <-]|[_ Hk]]%lookup_insert_Some; simpl; [lia|].
      apply Hws in Hk. lia.
    + intros k o Hk. apply Hwt in Hk. lia.
    + intros k1 k2 o1 o2 [[<- <-]|[_ H1]]%lookup_insert_Some
        [[<- <-]|[_ H2]]%lookup_insert_Some Hid; simpl in Hid; try done.
      * apply Hws in H2. lia.
      * apply Hws in H1. lia.
      * eauto.
    + exact Hat.
    + intros k1 k2 o1 o2 [[<- <-]|[_ H1]]%lookup_insert_Some H2; simpl.
      * apply Hwt in H2. lia.
      * eauto.
    + intros k o [[<- <-]|[_ Hk]]%lookup_insert_Some; eauto.
    + exact Hkt.
  - (* a target is stored *)
    repeat split; simpl.
    + exact Hss.
    + intros k o [[<- <-]|[_ Hk]]%lookup_insert_Some; eauto.
    + intros k o Hk. apply Hws in Hk. lia.
    + intros k o [[<- <-]|[_ Hk]]%lookup_insert_Some; simpl; [lia|].
      apply Hwt in Hk. lia.
    + exact Has.
    + intros k1 k2 o1 o2 [[<- <-]|[_ H1]]%lookup_insert_Some
        [[<- <-]|[_ H2]]%lookup_insert_Some Hid; simpl in Hid; try done.
      * apply Hwt in H2. lia.
      * apply Hwt in H1. lia.
      * eauto.
    + intros k1 k2 o1 o2 H1 [[<- <-]|[_ H2]]%lookup_insert_Some; simpl.
      * apply Hws in H1. lia.
      * eauto.
    + exact Hks.
    + intros k o [[<- <-]|[_ Hk]]%lookup_insert_Some; eauto.
  - (* the scratch array is written *)
    repeat split; simpl; eauto.
Qed.

Lemma reachable_invariant (σ : Store) :
  reachable toLowerCase σ → store_invariant toLowerCase σ.
Proof using Type.
  intros Hreach. apply evolves_steps in Hreach.
  assert (∀ σ0 σ1, rtc (internal_step toLowerCase) σ0 σ1 →
            store_invariant toLowerCase σ0 → store_invariant toLowerCase σ1)
    as Hrtc.
  { induction 1; eauto using internal_step_invariant. }
  eapply Hrtc; [exact Hreach|]. apply initial_store_invariant.
Qed.

End HistoryLemmas.

Section HistoryProperties.

Variable toLowerCase : jsstring → jsstring.

(** X4. Whatever calls of [single] were made since the module was loaded,
    every key of either cache has at most 999 code units and is mapped to
    the prepared form of that very key: a longer string never enters a
    cache, and no entry is stale. *)
Theorem reachable_caches_hold_prepared_forms (σ : Store) :
  reachable toLowerCase σ →
  (∀ k o, searchCache σ !! k = Some o →
     length k ≤ 999 ∧ contents o = prepareLowerCodes toLowerCase k)
  ∧ (∀ k o, targetCache σ !! k = Some o →
       length k ≤ 999
       ∧ contents o
         = mkPreparedTarget k None None None
             (prepareLowerCodes toLowerCase k)
             (prepareNextBeginningIndexes k)).
Proof using Type.
  intros Hreach.
  destruct (reachable_invariant toLowerCase σ Hreach)
    as ([Hss Hst] & _ & _ & Hks & Hkt).
  split; intros k o Hk; split; eauto.
Qed.

(** X5. In every reachable state the cached objects are pairwise distinct:
    two keys of one cache never share an object, and no object sits in both
    caches. *)
Theorem reachable_cache_entries_distinct (σ : Store) :
  reachable toLowerCase σ → no_alias σ.
Proof using Type.
  intros Hreach.
  by destruct (reachable_invariant toLowerCase σ Hreach) as (_ & _ & Ha & _).
Qed.

(** X6. Nothing is ever evicted or replaced: an object cached under a string
    of cacheable length is the object every later preparation of that string
    returns, however many calls of [single] came in between, and that
    preparation changes nothing. *)
Theorem cached_object_is_handed_back (σ σ' : Store) (s : jsstring) :
  evolves toLowerCase σ σ' →
  length s ≤ 999 →
  (∀ o, targetCache σ !! s = Some o →
     getPreparedTarget toLowerCase s σ' = (o, σ'))
  ∧ (∀ o, searchCache σ !! s = Some o →
       getPreparedSearch toLowerCase s σ' = (o, σ')).
Proof using Type.
  intros Hev Hlen.
  destruct (internal_steps_keep toLowerCase σ σ'
              (evolves_steps toLowerCase σ σ' Hev)) as (Hs & Ht & _).
  split; intros o Ho.
  - apply getPreparedTarget_hit; [done|]. by apply Ht.
  - apply getPreparedSearch_hit; [done|]. by apply Hs.
Qed.

(** X7. Caching is transparent: in every reachable state the contents
    returned by the cached preparations are those a fresh preparation would
    build, hit or miss. *)
Theorem caching_is_transparent (σ : Store) (s : jsstring) :
  reachable toLowerCase σ →
  contents (getPreparedTarget toLowerCase s σ).1
  = contents (prepareTarget toLowerCase s σ).1
  ∧ contents (getPreparedSearch toLowerCase s σ).1
    = contents (prepareSearch toLowerCase s σ).1.
Proof using Type.
  intros Hreach.
  destruct (reachable_invariant toLowerCase σ Hreach) as (Hsound & _).
  split.
  - by destruct (getPreparedTarget_sound toLowerCase s σ Hsound) as [-> _].
  - by destruct (getPreparedSearch_sound toLowerCase s σ Hsound) as [-> _].
Qed.

Lemma single_search_sound (search : arg PreparedSearch) (σ : Store) :
  cache_sound toLowerCase σ →
  cache_sound toLowerCase (single_search toLowerCase search σ).2
  ∧ ((single_search toLowerCase search σ).1 = None ↔ falsy search = true).
Proof using Type.
  intros Hsound. destruct search as [|[|c s]|p]; try done.
  unfold single_search, mbind, M_bind.
  destruct (getPreparedSearch_sound toLowerCase (c :: s) σ Hsound) as [_ H2].
  by destruct (getPreparedSearch toLowerCase (c :: s) σ).
Qed.

(** X8. What [single] answers depends on its two arguments only: [null] when
    the search or the target is missing or the empty string, [undefined]
    when the target is a prepared object without codes, and in every other
    case no answer at all, whatever the bound on the rounds. In particular
    it never answers with a match. *)
Theorem single_outcome_correct (fuel : nat)
    (instanceOptions options : option IFuzzyOptions)
    (search : arg PreparedSearch) (target : arg PreparedTarget) (σ : Store) :
  cache_sound toLowerCase σ →
  (single toLowerCase fuel instanceOptions search target options σ).1
  = single_outcome search target.
Proof using Type.
  intros Hsound. unfold single, single_outcome, mbind, M_bind.
  destruct (single_search_sound search σ Hsound) as [Hsound1 Hfalsy].
  destruct (single_search toLowerCase search σ) as [[ps|] σ1]; simpl in *.
  2:{ by rewrite (proj1 Hfalsy eq_refl). }
  destruct (falsy search) eqn:Hfs.
  { pose proof (proj2 Hfalsy eq_refl). discriminate. }
  clear Hfalsy.
  destruct target as [|[|d t]|pt]; try done; unfold single_target.
  - unfold mbind, M_bind.
    destruct (getPreparedTarget_sound toLowerCase (d :: t) σ1 Hsound1)
      as [Hpt _].
    destruct (getPreparedTarget toLowerCase (d :: t) σ1) as [o σ2].
    simpl in Hpt |- *.
    assert (_targetLowerCodes (contents o) ≠ []) as Hcodes.
    { rewrite Hpt. simpl. intros Hnil. apply (f_equal length) in Hnil.
      rewrite prepareLowerCodes_length in Hnil. discriminate. }
    destruct (resolve_allowTypo options instanceOptions);
      by apply algorithm_never_returns.
  - simpl. case_bool_decide as Hcodes.
    + destruct (resolve_allowTypo options instanceOptions);
        by rewrite algorithm_empty_target.
    + destruct (resolve_allowTypo options instanceOptions);
        by apply algorithm_never_returns.
Qed.

(** X9. The order of the two guards shows in the state. With a missing or
    empty search nothing at all is done, even if the target is a string
    that could be cached. With a non-empty search string of cacheable length
    and a missing or empty target, the answer is [null] but the search has
    been prepared and is cached afterwards; the target cache and the scratch
    array are as before. *)
Theorem single_guard_effects (fuel : nat)
    (instanceOptions options : option IFuzzyOptions)
    (search : arg PreparedSearch) (s : jsstring)
    (target : arg PreparedTarget) (σ : Store) :
  (falsy search = true →
   single toLowerCase fuel instanceOptions search target options σ
   = (Returned RNull, σ))
  ∧ (s ≠ [] → length s ≤ 999 → falsy target = true →
     let r := single toLowerCase fuel instanceOptions (Str s) target options σ in
     r.1 = Returned RNull
     ∧ is_Some (searchCache r.2 !! s)
     ∧ targetCache r.2 = targetCache σ
     ∧ matchesSimple r.2 = matchesSimple σ).
Proof using Type.
  split.
  - intros Hfalsy. by destruct search as [|[|c l]|p].
  - intros Hs Hlen Hfalsy. cbv zeta.
    destruct s as [|c s]; [done|].
    unfold single, single_search, mbind, M_bind.
    destruct (searchCache σ !! (c :: s)) as [o|] eqn:Ho.
    + rewrite (getPreparedSearch_hit toLowerCase _ o) by done.
      destruct target as [|[|d t]|pt]; try done; simpl; by rewrite Ho.
    + rewrite getPreparedSearch_miss by done. cbv zeta.
      destruct target as [|[|d t]|pt]; try done; simpl;
        by rewrite lookup_insert_eq.
Qed.

End HistoryProperties.

Lemma array_set_at_length (a : list jsval) (i : nat) (v : jsval) :
  length a = i → array_set a i v = a ++ [v].
Proof. intros <-. apply array_set_end. Qed.

Lemma array_set_scratch (m0 : list jsval) (len : nat) :
  array_set (replicate len (Num 0) ++ drop len m0) len (Num 0)
  = replicate (S len) (Num 0) ++ drop (S len) m0.
Proof.
  rewrite replicate_S_end, <- app_assoc.
  destruct (m0 !! len) as [x|] eqn:Hx.
  - rewrite (drop_S _ _ _ Hx).
    by rewrite array_set_middle by apply length_replicate.
  - apply lookup_ge_None in Hx. rewrite !drop_ge by lia.
    rewrite app_nil_r. apply array_set_at_length, length_replicate.
Qed.

Lemma while_true_writes (c : jsval) (codes : list jsval) (m0 : list jsval) :
  strict_eq c (array_get codes 0) = true →
  ∀ fuel si len σ,
    matchesSimple σ = replicate len (Num 0) ++ drop len m0 →
    matchesSimple
      (while_true fuel (algorithm_body c codes) (mkLoopState si 0 0 len) σ).2
    = replicate (len + fuel) (Num 0) ++ drop (len + fuel) m0.
Proof.
  intros Heq fuel. induction fuel as [|fuel IH]; intros si len σ Hm.
  - simpl. by rewrite Nat.add_0_r.
  - cbn [while_true]. unfold mbind at 1, M_bind at 1.
    unfold algorithm_body. cbn [targetIndex]. rewrite Heq.
    unfold mbind, M_bind, matchesSimple_set, mret, M_ret.
    cbn [searchIndex targetIndex typoSimpleIndex matchesSimpleLen].
    replace (len + S fuel) with (S len + fuel) by lia.
    apply IH. simpl. rewrite Hm. apply array_set_scratch.
Qed.

Lemma while_true_idle (c : jsval) (codes : list jsval) :
  strict_eq c (array_get codes 0) = false →
  ∀ fuel st σ, targetIndex st = 0 →
    (while_true fuel (algorithm_body c codes) st σ).2 = σ.
Proof.
  intros Hne fuel. induction fuel as [|fuel IH]; intros st σ Hst; [done|].
  cbn [while_true]. unfold mbind at 1, M_bind at 1.
  unfold algorithm_body. rewrite Hst, Hne.
  unfold mret, M_ret. by apply IH.
Qed.

(** X10. What the loop of [algorithm] does to the scratch array, for a target
    with at least one code. If the first search code equals the first target
    code, every round writes the target index 0 at the next place: after [n]
    rounds the array starts with [n] zeros, followed by what it held beyond
    place [n]. Otherwise the loop spins without changing any state. *)
Theorem algorithm_scratch_contents (fuel : nat) (preparedSearch : PreparedSearch)
    (preparedTarget : PreparedTarget) (σ : Store) :
  _targetLowerCodes preparedTarget ≠ [] →
  (strict_eq (array_get preparedSearch 0)
     (array_get (_targetLowerCodes preparedTarget) 0) = true →
   matchesSimple (algorithm fuel preparedSearch preparedTarget σ).2
   = replicate fuel (Num 0) ++ drop fuel (matchesSimple σ))
  ∧ (strict_eq (array_get preparedSearch 0)
       (array_get (_targetLowerCodes preparedTarget) 0) = false →
     (algorithm fuel preparedSearch preparedTarget σ).2 = σ).
Proof.
  intros Hcodes. unfold algorithm. cbv zeta.
  rewrite bool_decide_eq_false_2
    by (intros Hlen; by apply nil_length_inv in Hlen).
  split; intros Heq.
  - by apply (while_true_writes _ _ (matchesSimple σ) Heq fuel 0 0 σ).
  - by apply while_true_idle.
Qed.

(** ** The properties above on examples *)

Lemma sample_store_reachable : reachable ascii_toLowerCase sample_store.
Proof. apply evolves_single, evolves_refl. Qed.

Lemma reachable_caches_hold_prepared_forms_witness :
  (∀ k o, searchCache sample_store !! k = Some o →
     length k ≤ 999 ∧ contents o = prepareLowerCodes ascii_toLowerCase k)
  ∧ (∀ k o, targetCache sample_store !! k = Some o →
       length k ≤ 999
       ∧ contents o
         = mkPreparedTarget k None None None
             (prepareLowerCodes ascii_toLowerCase k)
             (prepareNextBeginningIndexes k)).
Proof.
  exact (reachable_caches_hold_prepared_forms ascii_toLowerCase sample_store
           sample_store_reachable).
Defined.

Lemma reachable_cache_entries_distinct_witness : no_alias sample_store.
Proof.
  exact (reachable_cache_entries_distinct ascii_toLowerCase sample_store
           sample_store_reachable).
Defined.

Lemma cached_object_is_handed_back_witness :
  let σ' := (single ascii_toLowerCase 5 None (Str (str "fs"))
               (Str (str "Fuzzy Search")) None sample_store).2 in
  (∀ o, targetCache sample_store !! str "Monitor.cpp" = Some o →
     getPreparedTarget ascii_toLowerCase (str "Monitor.cpp") σ' = (o, σ'))
  ∧ (∀ o, searchCache sample_store !! str "Monitor.cpp" = Some o →
       getPreparedSearch ascii_toLowerCase (str "Monitor.cpp") σ' = (o, σ')).
Proof.
  apply (cached_object_is_handed_back ascii_toLowerCase sample_store _
           (str "Monitor.cpp")).
  - apply evolves_single, evolves_refl.
  - vm_compute. lia.
Defined.

Lemma caching_is_transparent_witness :
  contents (getPreparedTarget ascii_toLowerCase (str "Monitor.cpp") sample_store).1
  = contents (prepareTarget ascii_toLowerCase (str "Monitor.cpp") sample_store).1
  ∧ contents (getPreparedSearch ascii_toLowerCase (str "Monitor.cpp") sample_store).1
    = contents (prepareSearch ascii_toLowerCase (str "Monitor.cpp") sample_store).1.
Proof.
  exact (caching_is_transparent ascii_toLowerCase sample_store
           (str "Monitor.cpp") sample_store_reachable).
Defined.

Lemma single_outcome_correct_witness :
  (single ascii_toLowerCase 7 None (Str (str "mr"))
     (Prepared (mkPreparedTarget [] None None None [] [])) None
     initial_store).1
  = Returned RUndefined.
Proof.
  exact (single_outcome_correct ascii_toLowerCase 7 None None (Str (str "mr"))
           (Prepared (mkPreparedTarget [] None None None [] []))
           initial_store (initial_store_sound ascii_toLowerCase)).
Defined.

Lemma single_guard_effects_witness :
  single ascii_toLowerCase 7 None Absent (Str (str "Monitor.cpp")) None
    initial_store
  = (Returned RNull, initial_store)
  ∧ (let r := single ascii_toLowerCase 7 None (Str (str "mr")) (Str []) None
                initial_store in
     r.1 = Returned RNull
     ∧ is_Some (searchCache r.2 !! str "mr")
     ∧ targetCache r.2 = targetCache initial_store
     ∧ matchesSimple r.2 = matchesSimple initial_store).
Proof.
  split.
  - apply (single_guard_effects ascii_toLowerCase 7 None None Absent []
             (Str (str "Monitor.cpp")) initial_store). reflexivity.
  - apply (single_guard_effects ascii_toLowerCase 7 None None Absent
             (str "mr") (Str []) initial_store).
    + discriminate.
    + vm_compute. lia.
    + reflexivity.
Defined.

Lemma algorithm_scratch_contents_witness :
  matchesSimple
    (algorithm 3 [Num 116; Num 101]
       (mkPreparedTarget (str "test") None None None
          [Num 116; Num 101; Num 115; Num 116] [Num 4; Num 4; Num 4; Num 4])
       (mkStore ∅ ∅ [Num 7; Num 8; Num 9; Num 5; Num 6] 0)).2
  = [Num 0; Num 0; Num 0; Num 5; Num 6]
  ∧ (algorithm 3 [Num 101]
       (mkPreparedTarget (str "test") None None None
          [Num 116; Num 101; Num 115; Num 116] [Num 4; Num 4; Num 4; Num 4])
       initial_store).2
    = initial_store.
Proof.
  split.
  - apply (algorithm_scratch_contents 3 [Num 116; Num 101]
             (mkPreparedTarget (str "test") None None None
                [Num 116; Num 101; Num 115; Num 116]
                [Num 4; Num 4; Num 4; Num 4])
             (mkStore ∅ ∅ [Num 7; Num 8; Num 9; Num 5; Num 6] 0));
      [discriminate | reflexivity].
  - apply (algorithm_scratch_contents 3 [Num 101]
             (mkPreparedTarget (str "test") None None None
                [Num 116; Num 101; Num 115; Num 116]
                [Num 4; Num 4; Num 4; Num 4])
             initial_store); [discriminate | reflexivity].
Defined.
